(** * Food delivery dispatch simulation: a shallow embedding of food_dis_sim.py

    The program is a discrete-event simulation written against the SimPy
    library: [run_simulation] builds an [Environment], starts the generator
    [food_delivery], which spawns one [handle_order] generator per order, and
    runs the event loop until [sim_duration].

    Modelling choices.
    - SimPy ([Environment], [Process], [Timeout], [Resource]) and the modules
      [random] and [statistics] are libraries the program imports.  The
      definitions that stand for them follow the code of those libraries,
      and name the method they stand for.
    - Python floats are modelled by exact rationals [Q].
    - The random source is the stream [rs] of the values
      [-log(1.0 - random())] that [random.expovariate] divides by its rate;
      [rng] is the number of values consumed so far.
    - A generator is modelled by its suspension point ([process]); an event
      of the queue carries the process its callback resumes.
    - The event loop [while True: self.step()] may run for ever (all
      inter-arrival samples equal to 0), so [run_loop] takes a number of
      steps it may perform and answers [None] when they are used up.
    - [trace] is an observation log: it records, in execution order, which
      statements of the generators ran.  Nothing reads it. *)

From Stdlib Require Import QArith ZArith List Lia Lqa Bool Sorted Permutation.
From Stdlib Require Import Qround.
From Stdlib Require Strings.String.
Import String.StringSyntax.
Import ListNotations.
Delimit Scope string_scope with string.
Open Scope Q_scope.

(** ** Exceptions *)

Inductive value_error :=
| capacity_not_positive   (* simpy.Resource: "capacity" must be > 0 *)
| until_not_after_now     (* Environment.run: until must be > the current time *)
| negative_delay.         (* Environment.timeout: negative delay *)

Inductive exn :=
| ValueError (why : value_error)
| ZeroDivisionError
| StatisticsError
| RuntimeError.

Inductive result (A : Type) :=
| Return (a : A)
| Raise (e : exn).
Arguments Return {A} a.
Arguments Raise {A} e.

(** ** Arithmetic of the source *)

Definition Qltb (x y : Q) : bool := negb (Qle_bool y x).

(** Python's [a / b] on floats. *)
Definition truediv (a b : Q) : result Q :=
  if Qeq_bool b 0 then Raise ZeroDivisionError else Return (a / b).

(** [random.expovariate(lambd)] is [-log(1.0 - random()) / lambd]; [e] is the
    value of the numerator. *)
Definition expovariate (lambd : Q) (e : Q) : result Q := truediv e lambd.

Definition sum (l : list Q) : Q := fold_right Qplus 0 l.

Definition len {A} (l : list A) : Q := inject_Z (Z.of_nat (length l)).

(** [statistics.mean]. *)
Definition mean (l : list Q) : result Q :=
  match l with
  | [] => Raise StatisticsError
  | _ => Return (sum l / len l)
  end.

(** ** Processes: the two generators at their suspension points *)

Inductive fd_point :=
| fd_entry                        (* created, not started *)
| fd_line27 (order_id : nat).     (* suspended at [yield env.timeout(interarrival)] *)

Inductive ho_point :=
| ho_entry (order_id : nat)                               (* created, not started *)
| ho_line35 (order_id : nat) (arrival_time : Q)           (* suspended at [yield req] *)
| ho_line38 (order_id : nat) (arrival_time wait_time : Q). (* suspended at [yield env.timeout(service_time)] *)

Inductive process :=
| FoodDelivery (pt : fd_point)
| HandleOrder (pt : ho_point).

Definition ho_order (pt : ho_point) : nat :=
  match pt with
  | ho_entry k | ho_line35 k _ | ho_line38 k _ _ => k
  end.

(** ** Events and the event queue *)

Inductive event :=
| Initialize (p : process)        (* starts a new process *)
| Timeout (p : process)           (* a timeout, yielded by [p] *)
| Request (pt : ho_point)         (* a granted request, yielded by [pt] *)
| Release                         (* a release; its callback is [_trigger_put] *)
| Process (failure : option exn)  (* the end of a process *)
| Until.                          (* the event [run] stops at *)

Definition URGENT : nat := 0.
Definition NORMAL : nat := 1.

(** An entry [(time, priority, eid, event)] of [Environment._queue]. *)
Record item := mkItem { time : Q; priority : nat; id : nat; ev : event }.

(** Tuple comparison of the entries; the event itself is never compared,
    because [eid]s are distinct. *)
Definition item_ltb (x y : item) : bool :=
  match time x ?= time y with
  | Lt => true
  | Gt => false
  | Eq => match Nat.compare (priority x) (priority y) with
          | Lt => true
          | Gt => false
          | Eq => Nat.ltb (id x) (id y)
          end
  end.

(** The heap is kept as the list of its entries in increasing order:
    [heappop] removes the head. *)
Fixpoint heappush (x : item) (q : list item) : list item :=
  match q with
  | [] => [x]
  | y :: q' => if item_ltb x y then x :: q else y :: heappush x q'
  end.

(** ** The state of one run *)

Record Environment := mkEnv { now : Q; eid : nat; queue : list item }.

(** [simpy.Resource]: [users] holds the granted requests and [put_queue] the
    waiting ones.  A request is named by the order of the [handle_order]
    frame that created it.  The get queue is empty between any two
    statements, because a release succeeds as soon as it is created. *)
Record Resource := mkResource { users : list nat; put_queue : list ho_point }.

Record Results := mkResults {
  wait_times : list Q;
  system_times : list Q;
  completed_orders : list nat }.

Inductive action :=
| Spawned (order_id : nat) (t : Q)     (* line 29: [env.process(handle_order(...))] *)
| Requested (order_id : nat) (t : Q)   (* line 34: [driver_resource.request()] *)
| Granted (order_id : nat) (t : Q)     (* the pool gives a driver to the request *)
| Completed (order_id : nat) (wait_time system_time : Q) (t : Q).  (* lines 41-43 *)

Record state := mkState {
  env : Environment;
  driver_resource : Resource;
  results : Results;
  rng : nat;
  trace : list action }.

Definition with_env (f : Environment -> Environment) (st : state) : state :=
  mkState (f (env st)) (driver_resource st) (results st) (rng st) (trace st).

Definition with_resource (f : Resource -> Resource) (st : state) : state :=
  mkState (env st) (f (driver_resource st)) (results st) (rng st) (trace st).

Definition with_results (f : Results -> Results) (st : state) : state :=
  mkState (env st) (driver_resource st) (f (results st)) (rng st) (trace st).

Definition log (a : action) (st : state) : state :=
  mkState (env st) (driver_resource st) (results st) (rng st) (trace st ++ [a]).

Definition clock (st : state) : Q := now (env st).

(** [Environment.schedule(event, priority, delay)]. *)
Definition schedule (prio : nat) (delay : Q) (e : event) (st : state) : state :=
  with_env (fun en =>
    mkEnv (now en) (S (eid en))
          (heappush (mkItem (now en + delay) prio (eid en) e) (queue en))) st.

(** [users.remove(request)] inside [try ... except ValueError: pass]. *)
Fixpoint remove_first (k : nat) (l : list nat) : list nat :=
  match l with
  | [] => []
  | x :: l' => if Nat.eqb x k then l' else x :: remove_first k l'
  end.

Inductive signal :=
| Continue
| StopSimulation
| Crash (e : exn)
| EmptySchedule.

Section Model.

Variable num_drivers : Z.
Variables arrival_rate service_time_mean : Q.
Variable rs : nat -> Q.

(** [random.expovariate(lambd)] on the shared random source: the sample is
    consumed before the division. *)
Definition draw (lambd : Q) (st : state) : result Q * state :=
  (expovariate lambd (rs (rng st)),
   mkState (env st) (driver_resource st) (results st) (S (rng st)) (trace st)).

(** The generator raised [e]: [Process._resume] schedules the process event
    as failed. *)
Definition fail (e : exn) (st : state) : state :=
  schedule NORMAL 0 (Process (Some e)) st.

(** The generator returned. *)
Definition finish (st : state) : state :=
  schedule NORMAL 0 (Process None) st.

(** [yield env.timeout(delay)] from the process that continues at [p];
    [Timeout.__init__] rejects a negative delay. *)
Definition yield_timeout (delay : Q) (p : process) (st : state) : result state :=
  if Qltb delay 0 then Raise (ValueError negative_delay)
  else Return (schedule NORMAL delay (Timeout p) st).

(** [BaseResource._trigger_put] with [Resource._do_put]: only the head of
    the put queue is looked at ([_do_put] returns [None], which ends the
    loop), and it is granted when a unit is free. *)
Definition trigger_put (st : state) : state :=
  match put_queue (driver_resource st) with
  | [] => st
  | pt :: rest =>
      if (Z.of_nat (length (users (driver_resource st))) <? num_drivers)%Z then
        log (Granted (ho_order pt) (clock st))
          (schedule NORMAL 0 (Request pt)
             (with_resource (fun r => mkResource (users r ++ [ho_order pt]) rest) st))
      else st
  end.

(** [driver_resource.request()]: the request joins the tail of the put
    queue, then [_trigger_put] runs. *)
Definition request (pt : ho_point) (st : state) : state :=
  trigger_put
    (log (Requested (ho_order pt) (clock st))
       (with_resource (fun r => mkResource (users r) (put_queue r ++ [pt])) st)).

(** [driver_resource.release(req)], called by [Request.__exit__]: the
    request leaves [users] and the release event is scheduled. *)
Definition release (k : nat) (st : state) : state :=
  schedule NORMAL 0 Release
    (with_resource (fun r => mkResource (remove_first k (users r)) (put_queue r)) st).

(** Lines 26-27, the head of the [while True] loop. *)
Definition food_delivery_loop (order_id : nat) (st : state) : state :=
  match draw arrival_rate st with
  | (Raise e, st1) => fail e st1
  | (Return interarrival, st1) =>
      match yield_timeout interarrival (FoodDelivery (fd_line27 order_id)) st1 with
      | Raise e => fail e st1
      | Return st2 => st2
      end
  end.

(** [food_delivery], resumed at [pt], up to its next [yield]. *)
Definition food_delivery (pt : fd_point) (st : state) : state :=
  match pt with
  | fd_entry =>
      (* line 21: simpy.Resource(env, capacity=num_drivers) *)
      if (num_drivers <=? 0)%Z then fail (ValueError capacity_not_positive) st
      else food_delivery_loop 0 st
  | fd_line27 order_id =>
      let order_id := S order_id in
      let st1 := schedule URGENT 0 (Initialize (HandleOrder (ho_entry order_id))) st in
      food_delivery_loop order_id (log (Spawned order_id (clock st)) st1)
  end.

(** Lines 36-38; an exception leaves the [with] block, which releases the
    request before the process fails. *)
Definition start_service (order_id : nat) (arrival_time : Q) (st : state) : state :=
  let wait_time := clock st - arrival_time in
  match truediv 1 service_time_mean with
  | Raise e => fail e (release order_id st)
  | Return rate =>
      match draw rate st with
      | (Raise e, st1) => fail e (release order_id st1)
      | (Return service_time, st1) =>
          match yield_timeout service_time
                  (HandleOrder (ho_line38 order_id arrival_time wait_time)) st1 with
          | Raise e => fail e (release order_id st1)
          | Return st2 => st2
          end
      end
  end.

(** Lines 39-43 and the end of the [with] block. *)
Definition complete (order_id : nat) (arrival_time wait_time : Q) (st : state) : state :=
  let system_time := clock st - arrival_time in
  let st1 :=
    with_results (fun r =>
      mkResults (wait_times r ++ [wait_time])
                (system_times r ++ [system_time])
                (completed_orders r ++ [order_id])) st in
  finish (release order_id (log (Completed order_id wait_time system_time (clock st)) st1)).

(** [handle_order], resumed at [pt], up to its next [yield]. *)
Definition handle_order (pt : ho_point) (st : state) : state :=
  match pt with
  | ho_entry order_id =>
      let arrival_time := clock st in
      request (ho_line35 order_id arrival_time) st
  | ho_line35 order_id arrival_time => start_service order_id arrival_time st
  | ho_line38 order_id arrival_time wait_time =>
      complete order_id arrival_time wait_time st
  end.

(** [Process._resume]. *)
Definition resume (p : process) (st : state) : state :=
  match p with
  | FoodDelivery pt => food_delivery pt st
  | HandleOrder pt => handle_order pt st
  end.

(** [Environment.step]: pop the least entry, set the clock, run the
    callbacks of the event. *)
Definition step (st : state) : signal * state :=
  match queue (env st) with
  | [] => (EmptySchedule, st)
  | x :: q =>
      let st1 := with_env (fun en => mkEnv (time x) (eid en) q) st in
      match ev x with
      | Initialize p => (Continue, resume p st1)
      | Timeout p => (Continue, resume p st1)
      | Request pt => (Continue, resume (HandleOrder pt) st1)
      | Release => (Continue, trigger_put st1)
      | Process None => (Continue, st1)
      | Process (Some e) => (Crash e, st1)
      | Until => (StopSimulation, st1)
      end
  end.

(** The loop of [Environment.run]. *)
Fixpoint run_loop (fuel : nat) (st : state) : option (result unit * state) :=
  match fuel with
  | O => None
  | S fuel' =>
      match step st with
      | (Continue, st') => run_loop fuel' st'
      | (StopSimulation, st') => Some (Return tt, st')
      | (Crash e, st') => Some (Raise e, st')
      | (EmptySchedule, st') => Some (Raise RuntimeError, st')
      end
  end.

(** [env.run(until=...)]. *)
Definition env_run (fuel : nat) (until : Q) (st : state) : option (result unit * state) :=
  if Qle_bool until (clock st) then Some (Raise (ValueError until_not_after_now), st)
  else run_loop fuel (schedule URGENT (until - clock st) Until st).

(** Lines 51-53: a fresh environment, empty results, and the arrival
    process created. *)
Definition created : state :=
  schedule URGENT 0 (Initialize (FoodDelivery fd_entry))
    (mkState (mkEnv 0 0 []) (mkResource [] []) (mkResults [] [] []) 0 []).

(** Lines 51-54. *)
Definition simulate (fuel : nat) (sim_duration : Q) : option (result unit * state) :=
  env_run fuel sim_duration created.

(** Line 58. *)
Definition throughput_of (results : Results) (sim_duration : Q) : result Q :=
  truediv (len (completed_orders results)) (sim_duration / 60).

(** Lines 56-57: [statistics.mean(l) if l else 0]. *)
Definition mean_or_zero (l : list Q) : result Q :=
  match l with
  | [] => Return 0
  | _ => mean l
  end.

(** Lines 56-60. *)
Definition summary (results : Results) (sim_duration : Q)
  : result (Q * Q * Q * Results) :=
  match mean_or_zero (wait_times results) with
  | Raise e => Raise e
  | Return avg_wait =>
      match mean_or_zero (system_times results) with
      | Raise e => Raise e
      | Return avg_system =>
          match throughput_of results sim_duration with
          | Raise e => Raise e
          | Return throughput => Return (avg_wait, avg_system, throughput, results)
          end
      end
  end.

Definition run_simulation (fuel : nat) (sim_duration : Q)
  : option (result (Q * Q * Q * Results)) :=
  match simulate fuel sim_duration with
  | None => None
  | Some (Raise e, _) => Some (Raise e)
  | Some (Return _, st) => Some (summary (results st) sim_duration)
  end.

End Model.


(** ** What the trace says *)

Definition action_time (a : action) : Q :=
  match a with
  | Spawned _ t | Requested _ t | Granted _ t | Completed _ _ _ t => t
  end.

Definition spawned_ids (tr : list action) : list nat :=
  flat_map (fun a => match a with Spawned k _ => [k] | _ => [] end) tr.

Definition requested_ids (tr : list action) : list nat :=
  flat_map (fun a => match a with Requested k _ => [k] | _ => [] end) tr.

Definition granted_ids (tr : list action) : list nat :=
  flat_map (fun a => match a with Granted k _ => [k] | _ => [] end) tr.

(** The triples [(wait_time, system_time, order_id)] of the completions. *)
Definition completions (tr : list action) : list (Q * Q * nat) :=
  flat_map (fun a => match a with Completed k w s _ => [(w, s, k)] | _ => [] end) tr.

(** ** The states of a run *)

Section Run.

Variable num_drivers : Z.
Variables arrival_rate service_time_mean : Q.
Variable rs : nat -> Q.
Variable sim_duration : Q.

(** The state [env.run] starts its loop in. *)
Definition started : state :=
  schedule URGENT (sim_duration - clock created) Until created.

(** At most [n] steps of the event loop, stopping with the loop. *)
Fixpoint steps (n : nat) (st : state) : signal * state :=
  match n with
  | O => (Continue, st)
  | S n' =>
      match step num_drivers arrival_rate service_time_mean rs st with
      | (Continue, st') => steps n' st'
      | other => other
      end
  end.

(** The state of the run after [n] steps of the loop (the last state, when
    the loop ends earlier).  When [run] rejects [sim_duration] there is no
    loop, and the state stays the one of line 53. *)
Definition state_at (n : nat) : state :=
  if Qle_bool sim_duration (clock created) then created
  else snd (steps n started).

End Run.

(** ** [main] and [visualize_summary]

    What [main] computes and what [visualize_summary] draws; printing and
    the writing of the files themselves are left out.  The runs of [main]
    share the random source of the module [random]: each run goes on where
    the one before stopped. *)

(** [round(x, ndigits)]: the nearest multiple of [10 ^ -ndigits], a tie
    going to the even one. *)
Definition round_half_even (x : Q) : Z :=
  let f := Qfloor x in
  match ((x - inject_Z f) ?= (1#2))%Q with
  | Lt => f
  | Gt => (f + 1)%Z
  | Eq => if Z.even f then f else (f + 1)%Z
  end.

Definition round (x : Q) (ndigits : nat) : Q :=
  let scale := inject_Z (10 ^ Z.of_nat ndigits) in
  inject_Z (round_half_even (x * scale)) / scale.

(** The parameters of a scenario, lines 118-121. *)
Module Params.
Record t := make { num_drivers : Z; arrival_rate : Q; service_mean : Q }.
End Params.

(** A row of [results_list], lines 133-141. *)
Module Row.
Record t := make {
  scenario : String.string;
  num_drivers : Z;
  arrival_rate_per_min : Q;
  service_mean_min : Q;
  avg_wait_min : Q;
  avg_system_min : Q;
  throughput_per_hr : Q }.
End Row.

(** A dict with string keys, in insertion order. *)
Fixpoint dict_get {A} (k : String.string) (d : list (String.string * A)) : option A :=
  match d with
  | [] => None
  | (k', v) :: d' => if String.eqb k' k then Some v else dict_get k d'
  end.

Fixpoint dict_set {A} (k : String.string) (v : A) (d : list (String.string * A))
  : list (String.string * A) :=
  match d with
  | [] => [(k, v)]
  | (k', v') :: d' => if String.eqb k' k then (k, v) :: d' else (k', v') :: dict_set k v d'
  end.

(** Lines 117-122. *)
Definition scenarios : list (String.string * Params.t) :=
  [("Baseline (5 drivers)"%string, Params.make 5 (1#10) 30);
   ("More drivers (8 drivers)"%string, Params.make 8 (1#10) 30);
   ("Higher demand (5 drivers, 50% more orders)"%string, Params.make 5 (15#100) 30);
   ("Faster deliveries (5 drivers, faster service)"%string, Params.make 5 (1#10) 20)].

(** Line 49: [sim_duration=8*60]. *)
Definition default_sim_duration : Q := 8 * 60.

(** The random source after [pos] values were consumed. *)
Definition skip (pos : nat) (rs : nat -> Q) : nat -> Q := fun i => rs (pos + i)%nat.

(** [run_simulation] called when [pos] values of the random source have
    been consumed: its outcome, and the number of values consumed after
    it. *)
Definition run_simulation_at (rs : nat -> Q) (pos fuel : nat) (params : Params.t)
    (sim_duration : Q) : option (result (Q * Q * Q * Results) * nat) :=
  match simulate (Params.num_drivers params) (Params.arrival_rate params)
                 (Params.service_mean params) (skip pos rs) fuel sim_duration with
  | None => None
  | Some (Raise e, st) => Some (Raise e, (pos + rng st)%nat)
  | Some (Return _, st) => Some (summary (results st) sim_duration, (pos + rng st)%nat)
  end.

(** Lines 127-141, the loop over the scenarios. *)
Fixpoint run_scenarios (rs : nat -> Q) (fuel : nat)
    (todo : list (String.string * Params.t)) (pos : nat)
    (results_list : list Row.t) (scenario_results : list (String.string * Results))
  : option (result (list Row.t * list (String.string * Results))) :=
  match todo with
  | [] => Some (Return (results_list, scenario_results))
  | (scenario, params) :: todo' =>
      match run_simulation_at rs pos fuel params default_sim_duration with
      | None => None
      | Some (Raise e, _) => Some (Raise e)
      | Some (Return (avg_wait, avg_system, throughput, results), pos') =>
          run_scenarios rs fuel todo' pos'
            (results_list
             ++ [Row.make scenario (Params.num_drivers params)
                          (Params.arrival_rate params) (Params.service_mean params)
                          (round avg_wait 3) (round avg_system 3)
                          (round throughput 2)])
            (dict_set scenario results scenario_results)
      end
  end.

(** A chart saved by [plt.savefig]: a bar chart with its labels and
    heights, or a histogram with its data and number of bins. *)
Inductive chart :=
| Bar (file : String.string) (x : list String.string) (height : list Q)
| Hist (file : String.string) (data : list Q) (bins : nat).

(** [df[name]]: a data frame made from no row has no column. *)
Definition column {A} (f : Row.t -> A) (df : list Row.t) : option (list A) :=
  match df with
  | [] => None
  | _ => Some (map f df)
  end.

(** [visualize_summary]: the charts saved, and the key of the [KeyError]
    that ended it, if any. *)
Definition visualize_summary (df : list Row.t)
    (scenario_results : list (String.string * Results))
  : list chart * option String.string :=
  match column Row.scenario df, column Row.avg_wait_min df,
        column Row.throughput_per_hr df with
  | Some names, Some waits, Some throughputs =>
      let chart1 := Bar "1_avg_wait_comparison.png"%string names waits in
      let chart2 := Bar "2_throughput_comparison.png"%string names throughputs in
      match dict_get "Baseline (5 drivers)"%string scenario_results with
      | None => ([chart1; chart2], Some "Baseline (5 drivers)"%string)
      | Some baseline_results =>
          ([chart1; chart2;
            Hist "3_system_time_distribution.png"%string
                 (system_times baseline_results) 30],
           None)
      end
  | _, _, _ => ([], Some "scenario"%string)
  end.

Inductive main_outcome :=
| Finished (df : list Row.t) (charts : list chart)
| Raised (e : exn)
| KeyError (key : String.string) (df : list Row.t) (charts : list chart).

(** [main]: the table and the charts. *)
Definition main (rs : nat -> Q) (fuel : nat) : option main_outcome :=
  match run_scenarios rs fuel scenarios 0 [] [] with
  | None => None
  | Some (Raise e) => Some (Raised e)
  | Some (Return (results_list, scenario_results)) =>
      match visualize_summary results_list scenario_results with
      | (charts, None) => Some (Finished results_list charts)
      | (charts, Some key) => Some (KeyError key results_list charts)
      end
  end.

(** The scenario and the parameters a row of the table was made for. *)
Definition row_configuration (r : Row.t) : String.string * Params.t :=
  (Row.scenario r,
   Params.make (Row.num_drivers r) (Row.arrival_rate_per_min r) (Row.service_mean_min r)).

(** A scenario with at least one driver and positive rates. *)
Definition params_valid (s : String.string * Params.t) : Prop :=
  (0 < Params.num_drivers (snd s))%Z
  /\ 0 < Params.arrival_rate (snd s)
  /\ 0 < Params.service_mean (snd s).

(** * The vocabulary of the properties *)

Definition time_le (x y : item) : Prop := time x <= time y.

Definition point_ok (t : Q) (pt : ho_point) : Prop :=
  match pt with
  | ho_entry _ => True
  | ho_line35 _ a => a <= t
  | ho_line38 _ a w => 0 <= w /\ a + w <= t
  end.

Definition process_ok (t : Q) (p : process) : Prop :=
  match p with
  | FoodDelivery _ => True
  | HandleOrder pt => point_ok t pt
  end.

Definition event_ok (t : Q) (e : event) : Prop :=
  match e with
  | Initialize p | Timeout p => process_ok t p
  | Request pt => point_ok t pt
  | _ => True
  end.

(** An entry of the queue is due at or after the current time, and the
    frame it resumes holds times that are in the past at that moment. *)
Definition item_ok (t : Q) (x : item) : Prop :=
  t <= time x /\ event_ok (time x) (ev x).

Definition service_ok (w s : Q) : Prop := 0 <= w /\ w <= s.

Record timely (st : state) : Prop := mkTimely {
  timely_sorted : StronglySorted time_le (queue (env st));
  timely_queue : Forall (item_ok (clock st)) (queue (env st));
  timely_waiting : Forall (point_ok (clock st)) (put_queue (driver_resource st));
  timely_trace : Forall (fun a => action_time a <= clock st) (trace st);
  timely_chrono : StronglySorted (fun a b => action_time a <= action_time b) (trace st);
  timely_results :
    Forall2 service_ok (wait_times (results st)) (system_times (results st)) }.

(** The requests made so far are the granted ones, in the order of the
    grants, followed by the waiting ones, in the order of the put queue. *)
Definition served_in_order (st : state) : Prop :=
  requested_ids (trace st)
  = granted_ids (trace st) ++ map ho_order (put_queue (driver_resource st)).

Definition event_procs (e : event) : list process :=
  match e with
  | Initialize p | Timeout p => [p]
  | Request pt => [HandleOrder pt]
  | _ => []
  end.

Definition queue_procs (q : list item) : list process :=
  flat_map (fun x => event_procs (ev x)) q.

(** The suspended processes: those an event of the queue will resume, and
    those whose request waits in the put queue. *)
Definition frames (st : state) : list process :=
  queue_procs (queue (env st)) ++ map HandleOrder (put_queue (driver_resource st)).

(** One resumption of a process at time [t]: the process, what it leaves
    suspended (itself at its next [yield], and the process it spawned) and
    what it did.  With no process, nothing. *)
Inductive turn (t : Q) : list process -> list process -> list action -> Prop :=
| turn_idle : turn t [] [] []
| turn_start_fail : turn t [FoodDelivery fd_entry] [] []
| turn_start : turn t [FoodDelivery fd_entry] [FoodDelivery (fd_line27 0)] []
| turn_spawn_fail k :
    turn t [FoodDelivery (fd_line27 k)]
           [HandleOrder (ho_entry (S k))] [Spawned (S k) t]
| turn_spawn k :
    turn t [FoodDelivery (fd_line27 k)]
           [FoodDelivery (fd_line27 (S k)); HandleOrder (ho_entry (S k))]
           [Spawned (S k) t]
| turn_request k :
    turn t [HandleOrder (ho_entry k)] [HandleOrder (ho_line35 k t)] [Requested k t]
| turn_serve_fail k a : turn t [HandleOrder (ho_line35 k a)] [] []
| turn_serve k a :
    turn t [HandleOrder (ho_line35 k a)] [HandleOrder (ho_line38 k a (t - a))] []
| turn_complete k a w :
    turn t [HandleOrder (ho_line38 k a w)] [] [Completed k w (t - a) t].

(** [adds new acts st st']: from [st] to [st'] the processes [new] were
    suspended and the actions [acts] logged, grants apart. *)
Record adds (new : list process) (acts : list action) (st st' : state) : Prop :=
  mkAdds {
    adds_frames : Permutation (frames st') (new ++ frames st);
    adds_spawned :
      spawned_ids (trace st') = spawned_ids (trace st) ++ spawned_ids acts;
    adds_requested :
      requested_ids (trace st') = requested_ids (trace st) ++ requested_ids acts;
    adds_completions :
      completions (trace st') = completions (trace st) ++ completions acts }.

(** What one step of the event loop does to the processes. *)
Definition lives (st st' : state) : Prop :=
  exists t popped next acts rest,
    turn t popped next acts
    /\ Permutation (frames st) (popped ++ rest)
    /\ Permutation (frames st') (next ++ rest)
    /\ spawned_ids (trace st') = spawned_ids (trace st) ++ spawned_ids acts
    /\ requested_ids (trace st') = requested_ids (trace st) ++ requested_ids acts
    /\ completions (trace st') = completions (trace st) ++ completions acts.

Definition fd_counter (pt : fd_point) : nat :=
  match pt with
  | fd_entry => 0
  | fd_line27 k => k
  end.

(** The order counters of the suspended [food_delivery] frames. *)
Definition arrivals (fr : list process) : list nat :=
  flat_map (fun p => match p with FoodDelivery pt => [fd_counter pt] | _ => [] end) fr.

(** The orders whose handler has not started. *)
Definition entries (fr : list process) : list nat :=
  flat_map (fun p => match p with HandleOrder (ho_entry k) => [k] | _ => [] end) fr.

(** The orders whose handler is suspended. *)
Definition pending (fr : list process) : list nat :=
  flat_map (fun p => match p with HandleOrder pt => [ho_order pt] | _ => [] end) fr.

(** [fr]: the suspended processes; [sp], [rq], [cp]: the orders spawned and
    requested and the completions so far. *)
Record accounts (fr : list process) (sp rq : list nat) (cp : list (Q * Q * nat))
  : Prop := mkAccounts {
  acc_spawned : sp = seq 1 (length sp);
  acc_arrival : Forall (eq (length sp)) (arrivals fr);
  acc_single : (length (arrivals fr) <= 1)%nat;
  acc_requests : NoDup (entries fr ++ rq);
  acc_requests_bound : Forall (fun k => (k <= length sp)%nat) (entries fr ++ rq);
  acc_pending : NoDup (pending fr ++ map snd cp);
  acc_pending_bound : Forall (fun k => (k <= length sp)%nat) (pending fr ++ map snd cp) }.

Definition accounted (st : state) : Prop :=
  accounts (frames st) (spawned_ids (trace st)) (requested_ids (trace st))
           (completions (trace st)).

Definition recorded (st : state) : Prop :=
  wait_times (results st) = map (fun c => fst (fst c)) (completions (trace st))
  /\ system_times (results st) = map (fun c => snd (fst c)) (completions (trace st))
  /\ completed_orders (results st) = map snd (completions (trace st)).

Record sound (st : state) : Prop := mkSound {
  sound_timely : timely st;
  sound_served : served_in_order st;
  sound_accounted : accounted st;
  sound_recorded : recorded st }.

(** A random source whose every value is 1: with it an inter-arrival time is
    [1 / arrival_rate] and a service time is [service_time_mean]. *)
Definition ones : nat -> Q := fun _ => 1.

(** ** Vocabulary of the further properties *)

(** [x] does not come after [y] in the order of the heap. *)
Definition key_le (x y : item) : Prop := item_ltb y x = false.

Definition is_until (e : event) : Prop :=
  match e with Until => True | _ => False end.

Definition failed (e : event) : Prop :=
  match e with Process (Some _) => True | _ => False end.

(** [pushes P st st']: from [st] to [st'] the environment changed only by
    calls of [schedule], each with an event that satisfies [P]. *)
Inductive pushes (P : event -> Prop) : state -> state -> Prop :=
| pushes_refl st : pushes P st st
| pushes_schedule st st1 prio delay e :
    pushes P st st1 -> P e -> pushes P st (schedule prio delay e st1)
| pushes_other st st1 st2 :
    pushes P st st1 -> env st2 = env st1 -> pushes P st st2.

(** A configuration the program is meant for, and a random source that
    gives what [-log(1.0 - random())] can give. *)
Definition valid_configuration (num_drivers : Z)
    (arrival_rate service_time_mean : Q) (rs : nat -> Q) : Prop :=
  (0 < num_drivers)%Z /\ 0 < arrival_rate /\ 0 < service_time_mean
  /\ forall i, 0 <= rs i.

(** The entries of the queue have distinct event ids, all below the next
    id to give. *)
Record distinct_ids (en : Environment) : Prop := mkDistinct {
  ids_nodup : NoDup (map id (queue en));
  ids_below : Forall (fun y => (id y < eid en)%nat) (queue en) }.

(** The loop of a run with horizon [d] has not come to its end. *)
Record running (d : Q) (en : Environment) : Prop := mkRunning {
  run_sorted : StronglySorted key_le (queue en);
  run_until : exists u, In u (queue en) /\ ev u = Until;
  run_until_key :
    Forall (fun y => ev y = Until ->
                     time y == d /\ priority y = URGENT /\ id y = 1%nat) (queue en);
  run_first : Forall (fun y => id y = 0%nat -> time y < d) (queue en);
  run_eid : (1 <= eid en)%nat;
  run_clock : now en < d }.

(** No process has failed. *)
Definition calm (en : Environment) : Prop :=
  Forall (fun y => ~ failed (ev y)) (queue en).

(** Not more drivers in use than there are. *)
Definition within_capacity (num_drivers : Z) (st : state) : Prop :=
  (Z.of_nat (length (users (driver_resource st))) <= Z.max 0 num_drivers)%Z.

(** Every order that is suspended or completed was spawned. *)
Definition covered (st : state) : Prop :=
  incl (pending (frames st) ++ map snd (completions (trace st)))
       (spawned_ids (trace st)).

(** A turn that loses no order: the orders it leaves suspended or
    completes are the ones it resumed or spawned. *)
Definition kept (popped next : list process) (acts : list action) : Prop :=
  Permutation (pending next ++ map snd (completions acts))
              (pending popped ++ spawned_ids acts).

(** The spawned orders are the suspended and the completed ones. *)
Definition conserved (st : state) : Prop :=
  Permutation (spawned_ids (trace st))
              (pending (frames st) ++ map snd (completions (trace st))).

(** In the log [tr] order [k] asked for a driver at [a] and was given one
    [w] later. *)
Definition waited (tr : list action) (k : nat) (a w : Q) : Prop :=
  In (Requested k a) tr /\ exists g, In (Granted k g) tr /\ w == g - a.

(** What the log says about a frame of [handle_order] that an event due at
    [t] will resume. *)
Definition point_due (tr : list action) (t : Q) (pt : ho_point) : Prop :=
  match pt with
  | ho_entry _ => True
  | ho_line35 k a => waited tr k a (t - a)
  | ho_line38 k a w => waited tr k a w
  end.

(** The same for a frame whose request is in the put queue. *)
Definition point_waiting (tr : list action) (pt : ho_point) : Prop :=
  match pt with
  | ho_entry _ => True
  | ho_line35 k a => In (Requested k a) tr
  | ho_line38 k a w => waited tr k a w
  end.

Definition event_due (tr : list action) (t : Q) (e : event) : Prop :=
  match e with
  | Initialize (HandleOrder pt) | Timeout (HandleOrder pt) | Request pt =>
      point_due tr t pt
  | _ => True
  end.

Definition action_due (tr : list action) (a : action) : Prop :=
  match a with
  | Completed k w s t => exists a, waited tr k a w /\ s == t - a
  | _ => True
  end.

(** The log explains the waiting and system times. *)
Record explained (st : state) : Prop := mkExplained {
  exp_queue :
    Forall (fun x => event_due (trace st) (time x) (ev x)) (queue (env st));
  exp_waiting :
    Forall (point_waiting (trace st)) (put_queue (driver_resource st));
  exp_done : Forall (action_due (trace st)) (trace st) }.

(** The clock and the times of the log are not negative. *)
Definition after_start (st : state) : Prop :=
  0 <= clock st /\ Forall (fun a => 0 <= action_time a) (trace st).

(** * Properties *)

(** ** The event queue *)

Lemma item_ltb_true x y : item_ltb x y = true -> time x <= time y.
Proof.
  unfold item_ltb. destruct (Qcompare_spec (time x) (time y)) as [E|L|G]; intros H.
  - rewrite E. apply Qle_refl.
  - apply Qlt_le_weak, L.
  - discriminate.
Qed.

Lemma item_ltb_false x y : item_ltb x y = false -> time y <= time x.
Proof.
  unfold item_ltb. destruct (Qcompare_spec (time x) (time y)) as [E|L|G]; intros H.
  - rewrite E. apply Qle_refl.
  - discriminate.
  - apply Qlt_le_weak, G.
Qed.

Lemma heappush_perm x q : Permutation (heappush x q) (x :: q).
Proof.
  induction q as [|y q IH]; simpl.
  - apply Permutation_refl.
  - destruct (item_ltb x y).
    + apply Permutation_refl.
    + eapply perm_trans; [apply perm_skip, IH | apply perm_swap].
Qed.

Lemma Forall_heappush (P : item -> Prop) x q :
  P x -> Forall P q -> Forall P (heappush x q).
Proof.
  intros Hx Hq. eapply Permutation_Forall.
  - apply Permutation_sym, heappush_perm.
  - constructor; assumption.
Qed.

Lemma heappush_sorted x q :
  StronglySorted time_le q -> StronglySorted time_le (heappush x q).
Proof.
  induction 1 as [|y q Hs IH Hy]; simpl.
  - repeat constructor.
  - destruct (item_ltb x y) eqn:E.
    + constructor; [constructor; assumption|].
      apply item_ltb_true in E. constructor; [exact E|].
      eapply Forall_impl; [|exact Hy]. unfold time_le. intros z Hz.
      eapply Qle_trans; eassumption.
    + constructor; [exact IH|].
      apply Forall_heappush; [apply item_ltb_false, E | exact Hy].
Qed.

(** ** Time never runs backwards *)

Lemma point_ok_mono t t' pt : t <= t' -> point_ok t pt -> point_ok t' pt.
Proof.
  intros Ht. destruct pt; simpl; intros H; try exact H.
  - eapply Qle_trans; eassumption.
  - destruct H as [H1 H2]. split; [exact H1|]. eapply Qle_trans; eassumption.
Qed.

Lemma StronglySorted_snoc {A} (R : A -> A -> Prop) l a :
  StronglySorted R l -> Forall (fun x => R x a) l -> StronglySorted R (l ++ [a]).
Proof.
  induction 1 as [|x l Hs IH Hx]; simpl; intros Ha.
  - repeat constructor.
  - inversion Ha; subst. constructor; [apply IH; assumption|].
    apply Forall_app. split; [exact Hx | repeat constructor; assumption].
Qed.

Lemma Forall2_snoc {A B} (R : A -> B -> Prop) l l' a b :
  Forall2 R l l' -> R a b -> Forall2 R (l ++ [a]) (l' ++ [b]).
Proof.
  intros H Hab. apply Forall2_app; [exact H | repeat constructor; exact Hab].
Qed.

Section Timely.

Variable num_drivers : Z.
Variables arrival_rate service_time_mean : Q.
Variable rs : nat -> Q.

Lemma schedule_timely prio delay e st :
  0 <= delay -> event_ok (clock st + delay) e ->
  timely st -> timely (schedule prio delay e st).
Proof.
  intros Hd He [H1 H2 H3 H4 H5 H6].
  constructor; unfold schedule, with_env, clock in *; simpl in *;
    try assumption.
  - apply heappush_sorted, H1.
  - apply Forall_heappush; [|exact H2]. split; simpl; [lra | exact He].
Qed.

Lemma log_timely a st :
  action_time a == clock st -> timely st -> timely (log a st).
Proof.
  intros Ha [H1 H2 H3 H4 H5 H6].
  constructor; unfold log, clock in *; simpl in *; try assumption.
  - apply Forall_app. split; [exact H4 | repeat constructor; lra].
  - apply StronglySorted_snoc; [exact H5|].
    eapply Forall_impl; [|exact H4]. simpl. intros b Hb. lra.
Qed.

Lemma fail_timely e st : timely st -> timely (fail e st).
Proof. intros H. apply schedule_timely; [lra | exact I | exact H]. Qed.

Lemma finish_timely st : timely st -> timely (finish st).
Proof. intros H. apply schedule_timely; [lra | exact I | exact H]. Qed.

Lemma release_timely k st : timely st -> timely (release k st).
Proof.
  intros [H1 H2 H3 H4 H5 H6]. apply schedule_timely; [lra | exact I |].
  constructor; assumption.
Qed.

Lemma trigger_put_timely st : timely st -> timely (trigger_put num_drivers st).
Proof.
  intros H. unfold trigger_put.
  destruct (put_queue (driver_resource st)) as [|pt rest] eqn:E; [exact H|].
  destruct (_ <? _)%Z; [|exact H].
  pose proof (timely_waiting _ H) as Hw. rewrite E in Hw.
  inversion Hw as [|? ? Hpt Hrest]; subst.
  apply log_timely; [simpl; apply Qeq_refl|].
  apply schedule_timely; [lra | |].
  - simpl. eapply point_ok_mono; [|exact Hpt].
    unfold clock, with_resource; simpl. lra.
  - destruct H as [H1 H2 _ H4 H5 H6]. constructor; simpl; assumption.
Qed.

Lemma request_timely pt st :
  point_ok (clock st) pt -> timely st -> timely (request num_drivers pt st).
Proof.
  intros Hp H. unfold request. apply trigger_put_timely.
  apply log_timely; [simpl; apply Qeq_refl|].
  destruct H as [H1 H2 H3 H4 H5 H6]. constructor; simpl; try assumption.
  apply Forall_app. split; [exact H3 | repeat constructor; exact Hp].
Qed.

Lemma draw_timely lambd st : timely st -> timely (snd (draw rs lambd st)).
Proof. intros [H1 H2 H3 H4 H5 H6]. constructor; assumption. Qed.

Lemma draw_clock lambd st : clock (snd (draw rs lambd st)) = clock st.
Proof. reflexivity. Qed.

Lemma yield_timeout_timely delay p st st' :
  yield_timeout delay p st = Return st' ->
  (0 <= delay -> process_ok (clock st + delay) p) ->
  timely st -> timely st'.
Proof.
  unfold yield_timeout, Qltb. intros E Hp H.
  destruct (Qle_bool 0 delay) eqn:D; simpl in E; [|discriminate].
  apply Qle_bool_iff in D. inversion E; subst.
  apply schedule_timely; [exact D | apply Hp, D | exact H].
Qed.

Lemma food_delivery_loop_timely k st :
  timely st -> timely (food_delivery_loop arrival_rate rs k st).
Proof.
  intros H. unfold food_delivery_loop.
  pose proof (draw_timely arrival_rate st H) as Hd.
  destruct (draw rs arrival_rate st) as [[x|e] st1]; simpl in Hd.
  - destruct (yield_timeout x _ st1) eqn:E.
    + eapply yield_timeout_timely; [exact E | intros; exact I | exact Hd].
    + apply fail_timely, Hd.
  - apply fail_timely, Hd.
Qed.

Lemma start_service_timely k a st :
  a <= clock st -> timely st ->
  timely (start_service service_time_mean rs k a st).
Proof.
  intros Ha H. unfold start_service.
  destruct (truediv 1 service_time_mean) as [rate|e].
  - pose proof (draw_timely rate st H) as Hd.
    pose proof (draw_clock rate st) as Hc.
    destruct (draw rs rate st) as [[x|e] st1]; simpl in Hd, Hc.
    + destruct (yield_timeout x _ st1) eqn:E.
      * eapply yield_timeout_timely; [exact E | | exact Hd].
        intros Hx. simpl. rewrite Hc. split; lra.
      * apply fail_timely, release_timely, Hd.
    + apply fail_timely, release_timely, Hd.
  - apply fail_timely, release_timely, H.
Qed.

Lemma complete_timely k a w st :
  0 <= w -> a + w <= clock st -> timely st -> timely (complete k a w st).
Proof.
  intros Hw Ha H. unfold complete.
  apply finish_timely, release_timely, log_timely; [simpl; apply Qeq_refl|].
  destruct H as [H1 H2 H3 H4 H5 H6]. constructor; simpl; try assumption.
  apply Forall2_snoc; [exact H6|]. unfold service_ok, clock. simpl.
  unfold clock in Ha. split; lra.
Qed.

Lemma resume_timely p st :
  process_ok (clock st) p -> timely st ->
  timely (resume num_drivers arrival_rate service_time_mean rs p st).
Proof.
  intros Hp H. destruct p as [[|k]|[k|k a|k a w]]; simpl in *.
  - destruct (num_drivers <=? 0)%Z.
    + apply fail_timely, H.
    + apply food_delivery_loop_timely, H.
  - apply food_delivery_loop_timely, log_timely; [simpl; apply Qeq_refl|].
    apply schedule_timely; [lra | exact I | exact H].
  - apply request_timely; [simpl; apply Qle_refl | exact H].
  - apply start_service_timely; assumption.
  - destruct Hp. apply complete_timely; assumption.
Qed.

(** Popping the head of the queue moves the clock forward. *)
Lemma pop_timely st x q :
  queue (env st) = x :: q -> timely st ->
  timely (with_env (fun en => mkEnv (time x) (eid en) q) st)
  /\ clock st <= time x /\ event_ok (time x) (ev x).
Proof.
  intros E [H1 H2 H3 H4 H5 H6]. rewrite E in *.
  inversion H1; subst. inversion H2 as [|? ? [Hx Hev] Hq]; subst.
  split; [|split; assumption].
  constructor; unfold clock in *; simpl in *; try assumption.
  - rewrite Forall_forall in *. intros y Hy. split.
    + match goal with H : forall _, In _ q -> time_le x _ |- _ => apply (H y Hy) end.
    + apply (Hq y Hy).
  - eapply Forall_impl; [|exact H3]. intros pt. apply point_ok_mono, Hx.
  - eapply Forall_impl; [|exact H4]. simpl. intros a Ha. lra.
Qed.

Lemma step_timely st sg st' :
  step num_drivers arrival_rate service_time_mean rs st = (sg, st') ->
  timely st -> timely st'.
Proof.
  unfold step. intros E H.
  destruct (queue (env st)) as [|x q] eqn:Eq.
  - inversion E; subst. exact H.
  - destruct (pop_timely st x q Eq H) as (H1 & _ & Hev).
    destruct (ev x) as [p|p|pt| |[e|]|]; inversion E; subst; try exact H1.
    + apply resume_timely; assumption.
    + apply resume_timely; assumption.
    + apply (resume_timely (HandleOrder pt)); assumption.
    + apply trigger_put_timely, H1.
Qed.

End Timely.

(** ** The pool serves its queue from the head *)

Section Served.

Variable num_drivers : Z.
Variables arrival_rate service_time_mean : Q.
Variable rs : nat -> Q.

Ltac same_pool :=
  unfold served_in_order, requested_ids, granted_ids; simpl;
  rewrite ?flat_map_app; simpl; rewrite ?app_nil_r; trivial.

Lemma trigger_put_served st :
  served_in_order st -> served_in_order (trigger_put num_drivers st).
Proof.
  unfold trigger_put. intros H.
  destruct (put_queue (driver_resource st)) as [|pt rest] eqn:E; [exact H|].
  destruct (_ <? _)%Z; [|exact H].
  unfold served_in_order in *. rewrite E in H. same_pool.
  unfold requested_ids, granted_ids in H. rewrite H, <- app_assoc. reflexivity.
Qed.

Lemma request_served pt st :
  served_in_order st -> served_in_order (request num_drivers pt st).
Proof.
  intros H. apply trigger_put_served. unfold served_in_order in *. same_pool.
  unfold requested_ids, granted_ids in H. rewrite H, map_app, app_assoc.
  reflexivity.
Qed.

Lemma food_delivery_loop_served k st :
  served_in_order st -> served_in_order (food_delivery_loop arrival_rate rs k st).
Proof.
  intros H. unfold food_delivery_loop, draw, yield_timeout.
  destruct (expovariate _ _) as [x|e]; [destruct (Qltb x 0)|]; exact H.
Qed.

Lemma start_service_served k a st :
  served_in_order st -> served_in_order (start_service service_time_mean rs k a st).
Proof.
  intros H. unfold start_service, draw, yield_timeout.
  destruct (truediv 1 _) as [rate|e]; [|exact H].
  destruct (expovariate _ _) as [x|e]; [destruct (Qltb x 0)|]; exact H.
Qed.

Lemma complete_served k a w st :
  served_in_order st -> served_in_order (complete k a w st).
Proof. intros H. unfold served_in_order in *. same_pool. Qed.

Lemma resume_served p st :
  served_in_order st ->
  served_in_order (resume num_drivers arrival_rate service_time_mean rs p st).
Proof.
  intros H. destruct p as [[|k]|[k|k a|k a w]]; simpl.
  - destruct (num_drivers <=? 0)%Z; [exact H|].
    apply food_delivery_loop_served, H.
  - apply food_delivery_loop_served. unfold served_in_order in *. same_pool.
  - apply request_served, H.
  - apply start_service_served, H.
  - apply complete_served, H.
Qed.

Lemma step_served st sg st' :
  step num_drivers arrival_rate service_time_mean rs st = (sg, st') ->
  served_in_order st -> served_in_order st'.
Proof.
  unfold step. intros E H.
  destruct (queue (env st)) as [|x q].
  - inversion E; subst. exact H.
  - destruct (ev x) as [p|p|pt| |[e|]|]; inversion E; subst; try exact H.
    + apply resume_served, H.
    + apply resume_served, H.
    + apply (resume_served (HandleOrder pt)), H.
    + apply trigger_put_served, H.
Qed.

End Served.

(** ** The life of the processes *)

Lemma adds_refl st : adds [] [] st st.
Proof. constructor; simpl; rewrite ?app_nil_r; reflexivity. Qed.

Lemma adds_trans n1 a1 n2 a2 st st1 st2 :
  adds n1 a1 st st1 -> adds n2 a2 st1 st2 -> adds (n2 ++ n1) (a1 ++ a2) st st2.
Proof.
  intros [F1 S1 R1 C1] [F2 S2 R2 C2]. constructor.
  - rewrite F2, F1, app_assoc. reflexivity.
  - rewrite S2, S1. unfold spawned_ids. rewrite flat_map_app, app_assoc. reflexivity.
  - rewrite R2, R1. unfold requested_ids. rewrite flat_map_app, app_assoc. reflexivity.
  - rewrite C2, C1. unfold completions. rewrite flat_map_app, app_assoc. reflexivity.
Qed.

Lemma queue_procs_heappush x q :
  Permutation (queue_procs (heappush x q)) (event_procs (ev x) ++ queue_procs q).
Proof.
  unfold queue_procs.
  change (event_procs (ev x) ++ flat_map (fun x => event_procs (ev x)) q)
    with (flat_map (fun x => event_procs (ev x)) (x :: q)).
  apply Permutation_flat_map, heappush_perm.
Qed.

Section Life.

Variable num_drivers : Z.
Variables arrival_rate service_time_mean : Q.
Variable rs : nat -> Q.

Lemma schedule_adds prio delay e st :
  adds (event_procs e) [] st (schedule prio delay e st).
Proof.
  constructor; simpl; rewrite ?app_nil_r; try reflexivity.
  unfold frames. simpl. rewrite queue_procs_heappush, app_assoc. reflexivity.
Qed.

Lemma schedule_adds_nil prio delay e st :
  event_procs e = [] -> adds [] [] st (schedule prio delay e st).
Proof. intros E. rewrite <- E. apply schedule_adds. Qed.

Lemma log_adds a st :
  match a with Granted _ _ => False | _ => True end ->
  adds [] [a] st (log a st).
Proof.
  intros _. constructor; simpl; try reflexivity.
  - unfold spawned_ids. rewrite flat_map_app. reflexivity.
  - unfold requested_ids. rewrite flat_map_app. reflexivity.
  - unfold completions. rewrite flat_map_app. reflexivity.
Qed.

Lemma log_grant_adds k t st : adds [] [] st (log (Granted k t) st).
Proof.
  constructor; simpl; try reflexivity.
  - unfold spawned_ids. rewrite flat_map_app. reflexivity.
  - unfold requested_ids. rewrite flat_map_app. reflexivity.
  - unfold completions. rewrite flat_map_app. reflexivity.
Qed.

Lemma release_adds k st : adds [] [] st (release k st).
Proof.
  unfold release.
  eapply (adds_trans [] [] [] []); [|apply schedule_adds_nil; reflexivity].
  constructor; simpl; rewrite ?app_nil_r; reflexivity.
Qed.

Lemma fail_adds e st : adds [] [] st (fail e st).
Proof. apply schedule_adds_nil. reflexivity. Qed.

Lemma finish_adds st : adds [] [] st (finish st).
Proof. apply schedule_adds_nil. reflexivity. Qed.

Lemma trigger_put_adds st : adds [] [] st (trigger_put num_drivers st).
Proof.
  unfold trigger_put.
  destruct (put_queue (driver_resource st)) as [|pt rest] eqn:E; [apply adds_refl|].
  destruct (_ <? _)%Z; [|apply adds_refl].
  eapply (adds_trans [] [] [] []); [|apply log_grant_adds].
  constructor; simpl; rewrite ?app_nil_r; try reflexivity.
  unfold frames. simpl. rewrite E, queue_procs_heappush. simpl.
  apply Permutation_middle.
Qed.

Lemma request_adds pt st :
  adds [HandleOrder pt] [Requested (ho_order pt) (clock st)] st
       (request num_drivers pt st).
Proof.
  unfold request.
  eapply (adds_trans [HandleOrder pt] [Requested (ho_order pt) (clock st)] [] []);
    [|apply trigger_put_adds].
  eapply (adds_trans [HandleOrder pt] [] [] [Requested (ho_order pt) (clock st)]);
    [|apply log_adds; exact I].
  constructor; simpl; rewrite ?app_nil_r; try reflexivity.
  unfold frames. simpl. rewrite map_app. simpl.
  rewrite app_assoc. apply Permutation_sym, Permutation_cons_append.
Qed.

Lemma draw_adds lambd st : adds [] [] st (snd (draw rs lambd st)).
Proof. constructor; simpl; rewrite ?app_nil_r; reflexivity. Qed.

Lemma yield_timeout_adds delay p st st' :
  yield_timeout delay p st = Return st' -> adds [p] [] st st'.
Proof.
  unfold yield_timeout. destruct (Qltb delay 0); intros E; inversion E; subst.
  apply (schedule_adds NORMAL delay (Timeout p)).
Qed.

Lemma food_delivery_loop_adds k st :
  adds [] [] st (food_delivery_loop arrival_rate rs k st)
  \/ adds [FoodDelivery (fd_line27 k)] [] st (food_delivery_loop arrival_rate rs k st).
Proof.
  unfold food_delivery_loop. pose proof (draw_adds arrival_rate st) as Hd.
  destruct (draw rs arrival_rate st) as [[x|e] st1]; simpl in Hd.
  - destruct (yield_timeout x _ st1) eqn:E.
    + right. apply yield_timeout_adds in E.
      apply (adds_trans [] [] _ [] _ _ _ Hd) in E. rewrite app_nil_r in E. exact E.
    + left. apply (adds_trans [] [] [] [] _ _ _ Hd), fail_adds.
  - left. apply (adds_trans [] [] [] [] _ _ _ Hd), fail_adds.
Qed.

Lemma start_service_adds k a st :
  adds [] [] st (start_service service_time_mean rs k a st)
  \/ adds [HandleOrder (ho_line38 k a (clock st - a))] [] st
          (start_service service_time_mean rs k a st).
Proof.
  unfold start_service.
  assert (F : forall e st1, adds [] [] st st1 -> adds [] [] st (fail e (release k st1))).
  { intros e st1 H.
    apply (adds_trans [] [] [] [] _ _ _ H).
    apply (adds_trans [] [] [] [] _ _ _ (release_adds k st1)), fail_adds. }
  destruct (truediv 1 service_time_mean) as [rate|e].
  - pose proof (draw_adds rate st) as Hd.
    destruct (draw rs rate st) as [[x|e] st1]; simpl in Hd.
    + destruct (yield_timeout x _ st1) eqn:E.
      * right. apply yield_timeout_adds in E.
        apply (adds_trans [] [] _ [] _ _ _ Hd) in E. rewrite app_nil_r in E. exact E.
      * left. apply F, Hd.
    + left. apply F, Hd.
  - left. apply F, adds_refl.
Qed.

Lemma complete_adds k a w st :
  adds [] [Completed k w (clock st - a) (clock st)] st (complete k a w st).
Proof.
  unfold complete.
  set (st1 := with_results _ st).
  assert (H1 : adds [] [] st st1)
    by (constructor; simpl; rewrite ?app_nil_r; reflexivity).
  pose proof (log_adds (Completed k w (clock st - a) (clock st)) st1 I) as H2.
  pose proof (adds_trans _ _ _ _ _ _ _ H1 H2) as H3.
  pose proof (adds_trans _ _ _ _ _ _ _ H3 (release_adds k _)) as H4.
  pose proof (adds_trans _ _ _ _ _ _ _ H4 (finish_adds _)) as H5.
  simpl in H5. exact H5.
Qed.

Lemma resume_turn p st :
  exists next acts,
    turn (clock st) [p] next acts
    /\ adds next acts st (resume num_drivers arrival_rate service_time_mean rs p st).
Proof.
  destruct p as [[|k]|[k|k a|k a w]]; simpl.
  - destruct (num_drivers <=? 0)%Z.
    + exists [], []. split; [constructor | apply fail_adds].
    + destruct (food_delivery_loop_adds 0 st) as [H|H].
      * exists [], []. split; [constructor | exact H].
      * eexists _, []. split; [apply turn_start | exact H].
  - set (st1 := log _ _).
    assert (H1 : adds [HandleOrder (ho_entry (S k))] [Spawned (S k) (clock st)] st st1).
    { unfold st1.
      pose proof (schedule_adds URGENT 0 (Initialize (HandleOrder (ho_entry (S k)))) st) as A.
      pose proof (log_adds (Spawned (S k) (clock st))
                    (schedule URGENT 0 (Initialize (HandleOrder (ho_entry (S k)))) st) I) as B.
      pose proof (adds_trans _ _ _ _ _ _ _ A B) as C. exact C. }
    destruct (food_delivery_loop_adds (S k) st1) as [H|H];
      pose proof (adds_trans _ _ _ _ _ _ _ H1 H) as H2; simpl in H2.
    + eexists _, _. split; [apply turn_spawn_fail | exact H2].
    + eexists _, _. split; [apply turn_spawn | exact H2].
  - eexists _, _. split; [apply turn_request | apply (request_adds (ho_line35 k (clock st)))].
  - destruct (start_service_adds k a st) as [H|H].
    + exists [], []. split; [constructor | exact H].
    + eexists _, []. split; [apply turn_serve | exact H].
  - eexists _, _. split; [apply turn_complete | apply complete_adds].
Qed.

Lemma lives_of_adds t popped next acts st st1 st' :
  Permutation (frames st) (popped ++ frames st1) -> trace st1 = trace st ->
  turn t popped next acts -> adds next acts st1 st' -> lives st st'.
Proof.
  intros P T Ht [F S R C]. exists t, popped, next, acts, (frames st1).
  rewrite <- T. auto 10.
Qed.

Lemma step_lives st sg st' :
  step num_drivers arrival_rate service_time_mean rs st = (sg, st') -> lives st st'.
Proof.
  unfold step. intros E.
  destruct (queue (env st)) as [|x q] eqn:Eq.
  - inversion E; subst.
    apply (lives_of_adds 0 [] [] [] _ _ _
             (Permutation_refl _) eq_refl (turn_idle 0) (adds_refl _)).
  - set (st1 := with_env (fun en => mkEnv (time x) (eid en) q) st) in *.
    assert (P1 : Permutation (frames st) (event_procs (ev x) ++ frames st1)).
    { unfold frames, st1. simpl. rewrite Eq. simpl. rewrite app_assoc. reflexivity. }
    assert (Busy : forall p, event_procs (ev x) = [p] ->
      lives st (resume num_drivers arrival_rate service_time_mean rs p st1)).
    { intros p Ep. rewrite Ep in P1.
      destruct (resume_turn p st1) as (next & acts & Ht & Ha).
      eapply lives_of_adds; [exact P1 | reflexivity | exact Ht | exact Ha]. }
    assert (Quiet : forall st2, event_procs (ev x) = [] -> adds [] [] st1 st2 ->
      lives st st2).
    { intros st2 N Ha. rewrite N in P1.
      eapply lives_of_adds; [exact P1 | reflexivity | apply (turn_idle 0) | exact Ha]. }
    destruct (ev x) as [p|p|pt| |[e|]|]; inversion E; subst.
    + apply Busy. reflexivity.
    + apply Busy. reflexivity.
    + apply (Busy (HandleOrder pt)). reflexivity.
    + apply Quiet; [reflexivity | apply trigger_put_adds].
    + apply Quiet; [reflexivity | apply adds_refl].
    + apply Quiet; [reflexivity | apply adds_refl].
    + apply Quiet; [reflexivity | apply adds_refl].
Qed.

End Life.

(** ** Every order is accounted for once *)

Lemma accounts_perm fr fr' sp rq cp :
  Permutation fr fr' -> accounts fr sp rq cp -> accounts fr' sp rq cp.
Proof.
  intros P [H1 H2 H3 H4 H5 H6 H7].
  assert (PA : Permutation (arrivals fr) (arrivals fr'))
    by apply Permutation_flat_map, P.
  assert (PE : Permutation (entries fr) (entries fr'))
    by apply Permutation_flat_map, P.
  assert (PP : Permutation (pending fr) (pending fr'))
    by apply Permutation_flat_map, P.
  constructor.
  - exact H1.
  - eapply Permutation_Forall; eassumption.
  - rewrite <- (Permutation_length PA). exact H3.
  - eapply Permutation_NoDup; [|exact H4]. apply Permutation_app_tail, PE.
  - eapply Permutation_Forall; [|exact H5]. apply Permutation_app_tail, PE.
  - eapply Permutation_NoDup; [|exact H6]. apply Permutation_app_tail, PP.
  - eapply Permutation_Forall; [|exact H7]. apply Permutation_app_tail, PP.
Qed.

Lemma bound_fresh n l : Forall (fun k => (k <= n)%nat) l -> ~ In (S n) l.
Proof.
  intros H Hin. rewrite Forall_forall in H. apply H in Hin. lia.
Qed.

Lemma bound_weaken n l :
  Forall (fun k => (k <= n)%nat) l -> Forall (fun k => (k <= S n)%nat) l.
Proof. apply Forall_impl. intros; lia. Qed.

Lemma perm_rotate {A} (k : A) l1 l2 : Permutation (k :: l1 ++ l2) (l1 ++ l2 ++ [k]).
Proof. rewrite app_assoc. apply Permutation_cons_append. Qed.

Lemma accounts_turn t popped next acts rest sp rq cp :
  turn t popped next acts ->
  accounts (popped ++ rest) sp rq cp ->
  accounts (next ++ rest) (sp ++ spawned_ids acts) (rq ++ requested_ids acts)
           (cp ++ completions acts).
Proof.
  intros Ht [H1 H2 H3 H4 H5 H6 H7].
  destruct Ht; simpl in *; rewrite ?app_nil_r in *.
  - constructor; assumption.
  - inversion H2; subst. constructor; try assumption. lia.
  - constructor; assumption.
  - inversion H2 as [|? ? Hk Hr]; subst.
    assert (N : arrivals rest = []) by (destruct (arrivals rest); [reflexivity | simpl in H3; lia]).
    assert (L : length (sp ++ [S (length sp)]) = S (length sp))
      by (rewrite length_app; simpl; lia).
    constructor; simpl; rewrite ?L, ?N.
    + rewrite seq_S, <- H1. reflexivity.
    + constructor.
    + simpl. lia.
    + constructor; [apply bound_fresh, H5 | exact H4].
    + constructor; [lia | apply bound_weaken, H5].
    + constructor; [apply bound_fresh, H7 | exact H6].
    + constructor; [lia | apply bound_weaken, H7].
  - inversion H2 as [|? ? Hk Hr]; subst.
    assert (N : arrivals rest = []) by (destruct (arrivals rest); [reflexivity | simpl in H3; lia]).
    assert (L : length (sp ++ [S (length sp)]) = S (length sp))
      by (rewrite length_app; simpl; lia).
    constructor; simpl; rewrite ?L, ?N.
    + rewrite seq_S, <- H1. reflexivity.
    + repeat constructor.
    + simpl. lia.
    + constructor; [apply bound_fresh, H5 | exact H4].
    + constructor; [lia | apply bound_weaken, H5].
    + constructor; [apply bound_fresh, H7 | exact H6].
    + constructor; [lia | apply bound_weaken, H7].
  - constructor; try assumption.
    + eapply Permutation_NoDup; [apply perm_rotate | exact H4].
    + eapply Permutation_Forall; [apply perm_rotate | exact H5].
  - inversion H6; subst. inversion H7; subst. constructor; assumption.
  - constructor; assumption.
  - constructor; try assumption.
    + rewrite map_app. simpl.
      eapply Permutation_NoDup; [apply perm_rotate | exact H6].
    + rewrite map_app. simpl.
      eapply Permutation_Forall; [apply perm_rotate | exact H7].
Qed.

Lemma lives_accounted st st' : lives st st' -> accounted st -> accounted st'.
Proof.
  unfold accounted.
  intros (t & popped & next & acts & rest & Ht & P & P' & S & R & C) H.
  rewrite S, R, C.
  eapply accounts_perm; [apply Permutation_sym, P'|].
  eapply accounts_turn; [exact Ht|].
  eapply accounts_perm; [exact P | exact H].
Qed.

(** ** The results are the completions *)

Section Recorded.

Variable num_drivers : Z.
Variables arrival_rate service_time_mean : Q.
Variable rs : nat -> Q.

Ltac same_records H :=
  solve [ destruct H as (H1 & H2 & H3); unfold recorded, completions in *;
          repeat split; simpl;
          rewrite ?flat_map_app, ?map_app; simpl; rewrite ?app_nil_r;
          try assumption; try congruence ].

Lemma trigger_put_recorded st : recorded st -> recorded (trigger_put num_drivers st).
Proof.
  unfold trigger_put. intros H.
  destruct (put_queue (driver_resource st)) as [|pt rest]; [exact H|].
  destruct (_ <? _)%Z; [|exact H]. same_records H.
Qed.

Lemma request_recorded pt st : recorded st -> recorded (request num_drivers pt st).
Proof. intros H. apply trigger_put_recorded. same_records H. Qed.

Lemma food_delivery_loop_recorded k st :
  recorded st -> recorded (food_delivery_loop arrival_rate rs k st).
Proof.
  intros H. unfold food_delivery_loop, draw, yield_timeout.
  destruct (expovariate _ _) as [x|e]; [destruct (Qltb x 0)|]; exact H.
Qed.

Lemma start_service_recorded k a st :
  recorded st -> recorded (start_service service_time_mean rs k a st).
Proof.
  intros H. unfold start_service, draw, yield_timeout.
  destruct (truediv 1 _) as [rate|e]; [|exact H].
  destruct (expovariate _ _) as [x|e]; [destruct (Qltb x 0)|]; exact H.
Qed.

Lemma complete_recorded k a w st : recorded st -> recorded (complete k a w st).
Proof. intros H. same_records H. Qed.

Lemma resume_recorded p st :
  recorded st -> recorded (resume num_drivers arrival_rate service_time_mean rs p st).
Proof.
  intros H. destruct p as [[|k]|[k|k a|k a w]]; simpl.
  - destruct (num_drivers <=? 0)%Z; [exact H|].
    apply food_delivery_loop_recorded, H.
  - apply food_delivery_loop_recorded. same_records H.
  - apply request_recorded, H.
  - apply start_service_recorded, H.
  - apply complete_recorded, H.
Qed.

Lemma step_recorded st sg st' :
  step num_drivers arrival_rate service_time_mean rs st = (sg, st') ->
  recorded st -> recorded st'.
Proof.
  unfold step. intros E H.
  destruct (queue (env st)) as [|x q].
  - inversion E; subst. exact H.
  - destruct (ev x) as [p|p|pt| |[e|]|]; inversion E; subst; try exact H.
    + apply resume_recorded, H.
    + apply resume_recorded, H.
    + apply (resume_recorded (HandleOrder pt)), H.
    + apply trigger_put_recorded, H.
Qed.

End Recorded.

(** ** The invariants hold throughout a run *)

Lemma created_sound : sound created.
Proof.
  constructor.
  - constructor; simpl; try solve [repeat constructor].
    constructor; [|constructor]. split; [unfold clock; simpl; lra | exact I].
  - reflexivity.
  - constructor; simpl; solve [repeat constructor].
  - repeat split.
Qed.

Lemma accepted_positive d : Qle_bool d (clock created) = false -> 0 < d.
Proof.
  intros E. apply Qnot_le_lt. intros H. apply Qle_bool_iff in H.
  change (clock created) with 0 in E. congruence.
Qed.

Section Sound.

Variable num_drivers : Z.
Variables arrival_rate service_time_mean : Q.
Variable rs : nat -> Q.
Variable sim_duration : Q.

Lemma step_sound st sg st' :
  step num_drivers arrival_rate service_time_mean rs st = (sg, st') ->
  sound st -> sound st'.
Proof.
  intros E [H1 H2 H3 H4]. constructor.
  - eapply step_timely; eassumption.
  - eapply step_served; eassumption.
  - eapply lives_accounted; [eapply step_lives; eassumption | exact H3].
  - eapply step_recorded; eassumption.
Qed.

Lemma started_sound :
  Qle_bool sim_duration (clock created) = false -> sound (started sim_duration).
Proof.
  intros E. destruct created_sound as [H1 H2 H3 H4]. constructor.
  - apply schedule_timely; [|exact I | exact H1].
    apply accepted_positive in E. change (clock created) with 0. lra.
  - exact H2.
  - eapply lives_accounted; [|exact H3].
    apply (lives_of_adds 0 [] [] [] created created (started sim_duration)
             (Permutation_refl _) eq_refl (turn_idle 0)).
    apply schedule_adds_nil. reflexivity.
  - exact H4.
Qed.

Lemma steps_sound n : forall st,
  sound st -> sound (snd (steps num_drivers arrival_rate service_time_mean rs n st)).
Proof.
  induction n as [|n IH]; intros st H; simpl; [exact H|].
  destruct (step _ _ _ _ st) as [sg st'] eqn:E.
  pose proof (step_sound _ _ _ E H) as H'.
  destruct sg; simpl; try exact H'. apply IH, H'.
Qed.

Lemma state_at_sound n :
  sound (state_at num_drivers arrival_rate service_time_mean rs sim_duration n).
Proof.
  unfold state_at. destruct (Qle_bool _ _) eqn:E.
  - apply created_sound.
  - apply steps_sound, started_sound, E.
Qed.

(** The loop with [fuel] steps, when it ends, ends in a state of the run. *)
Lemma run_loop_steps fuel : forall st r st',
  run_loop num_drivers arrival_rate service_time_mean rs fuel st = Some (r, st') ->
  st' = snd (steps num_drivers arrival_rate service_time_mean rs fuel st).
Proof.
  induction fuel as [|fuel IH]; intros st r st' E; simpl in *; [discriminate|].
  destruct (step _ _ _ _ st) as [sg st1].
  destruct sg; simpl; try (inversion E; reflexivity).
  apply (IH _ _ _ E).
Qed.

Lemma simulate_state_at fuel r st :
  simulate num_drivers arrival_rate service_time_mean rs fuel sim_duration = Some (r, st) ->
  st = state_at num_drivers arrival_rate service_time_mean rs sim_duration fuel.
Proof.
  unfold simulate, env_run, state_at. destruct (Qle_bool _ _).
  - intros E. inversion E. reflexivity.
  - apply run_loop_steps.
Qed.

Lemma simulate_sound fuel r st :
  simulate num_drivers arrival_rate service_time_mean rs fuel sim_duration = Some (r, st) ->
  sound st.
Proof.
  intros E. rewrite (simulate_state_at _ _ _ E). apply state_at_sound.
Qed.

(** [env.run] returns only for a duration that is positive. *)
Lemma simulate_returns_positive fuel st :
  simulate num_drivers arrival_rate service_time_mean rs fuel sim_duration
  = Some (Return tt, st) -> 0 < sim_duration.
Proof.
  unfold simulate, env_run. destruct (Qle_bool _ _) eqn:E; [discriminate|].
  intros _. apply accepted_positive, E.
Qed.

(** More fuel does not change the outcome of a loop that ended. *)
Lemma run_loop_more fuel : forall st x k,
  run_loop num_drivers arrival_rate service_time_mean rs fuel st = Some x ->
  run_loop num_drivers arrival_rate service_time_mean rs (fuel + k) st = Some x.
Proof.
  induction fuel as [|fuel IH]; intros st x k E; simpl in *; [discriminate|].
  destruct (step _ _ _ _ st) as [sg st1].
  destruct sg; try exact E. apply IH, E.
Qed.

Lemma simulate_more fuel k x :
  simulate num_drivers arrival_rate service_time_mean rs fuel sim_duration = Some x ->
  simulate num_drivers arrival_rate service_time_mean rs (fuel + k) sim_duration = Some x.
Proof.
  unfold simulate, env_run. destruct (Qle_bool _ _); [trivial|].
  apply run_loop_more.
Qed.

End Sound.

(** The run reads the random source only through its values. *)
Section SameSource.

Variable num_drivers : Z.
Variables arrival_rate service_time_mean : Q.
Variables rs1 rs2 : nat -> Q.
Hypothesis same : forall i, rs1 i = rs2 i.

Lemma step_same st :
  step num_drivers arrival_rate service_time_mean rs1 st
  = step num_drivers arrival_rate service_time_mean rs2 st.
Proof.
  unfold step, resume, food_delivery, handle_order, food_delivery_loop,
    start_service, draw.
  destruct (queue (env st)) as [|x q]; [reflexivity|].
  destruct (ev x) as [[[|k]|[k|k a|k a w]]|[[|k]|[k|k a|k a w]]|[k|k a|k a w]| |[e|]|];
    rewrite ?same; reflexivity.
Qed.

Lemma run_loop_same fuel : forall st,
  run_loop num_drivers arrival_rate service_time_mean rs1 fuel st
  = run_loop num_drivers arrival_rate service_time_mean rs2 fuel st.
Proof.
  induction fuel as [|fuel IH]; intros st; simpl; [reflexivity|].
  rewrite step_same.
  destruct (step _ _ _ rs2 st) as [sg st1]. destruct sg; try reflexivity. apply IH.
Qed.

Lemma simulate_same fuel sim_duration :
  simulate num_drivers arrival_rate service_time_mean rs1 fuel sim_duration
  = simulate num_drivers arrival_rate service_time_mean rs2 fuel sim_duration.
Proof.
  unfold simulate, env_run. destruct (Qle_bool _ _); [reflexivity|].
  apply run_loop_same.
Qed.

End SameSource.

(** * The claims *)

(** ** The summary *)

Lemma mean_or_zero_returns l : exists m, mean_or_zero l = Return m.
Proof. destruct l; simpl; eexists; reflexivity. Qed.

Lemma throughput_of_positive res d :
  0 < d -> throughput_of res d = Return (len (completed_orders res) / (d / 60)).
Proof.
  intros Hd. unfold throughput_of, truediv.
  destruct (Qeq_bool (d / 60) 0) eqn:E; [|reflexivity].
  apply Qeq_bool_eq in E. exfalso.
  assert (H : d == (d / 60) * 60) by (field; discriminate).
  rewrite E in H. lra.
Qed.

Lemma run_simulation_returned nd ar sm rs fuel d avg_wait avg_system throughput res :
  run_simulation nd ar sm rs fuel d
  = Some (Return (avg_wait, avg_system, throughput, res)) ->
  exists st, simulate nd ar sm rs fuel d = Some (Return tt, st) /\ res = results st.
Proof.
  unfold run_simulation, summary.
  destruct (simulate nd ar sm rs fuel d) as [[[[]|e] st]|]; try discriminate.
  destruct (mean_or_zero _); [|discriminate].
  destruct (mean_or_zero _); [|discriminate].
  destruct (throughput_of _ _); [|discriminate].
  intros E. inversion E; subst. exists st. split; reflexivity.
Qed.




(** C2, as amended: with a horizon of 0 [run_simulation] does not return a
    summary: [env.run] rejects an [until] that is not after the current
    time 0.  Line 58 is not reached; on its own it would divide by zero. *)
Theorem zero_horizon_rejected nd ar sm rs fuel d :
  d == 0 ->
  run_simulation nd ar sm rs fuel d = Some (Raise (ValueError until_not_after_now))
  /\ forall res, throughput_of res d = Raise ZeroDivisionError.
Proof.
  intros Hd. split.
  - unfold run_simulation, simulate, env_run.
    assert (E : Qle_bool d (clock created) = true)
      by (apply Qle_bool_iff; change (clock created) with 0; lra).
    rewrite E. reflexivity.
  - intros res. unfold throughput_of, truediv.
    assert (E : Qeq_bool (d / 60) 0 = true)
      by (apply Qeq_bool_iff; rewrite Hd; reflexivity).
    rewrite E. reflexivity.
Qed.

Lemma zero_horizon_rejected_witness :
  run_simulation 5 (1#10) 30 ones 100 0 = Some (Raise (ValueError until_not_after_now))
  /\ forall res, throughput_of res 0 = Raise ZeroDivisionError.
Proof.
  apply (zero_horizon_rejected 5 (1#10) 30 ones 100 0). reflexivity.
Defined.

(** C2 as stated fails: the baseline configuration with horizon 0 raises
    instead of returning zeros; and the expression of line 58, taken alone,
    divides by zero when the horizon is 0. *)
Lemma zero_horizon_raises :
  run_simulation 5 (1#10) 30 ones 100 0 = Some (Raise (ValueError until_not_after_now))
  /\ (forall avg_wait avg_system throughput res,
        run_simulation 5 (1#10) 30 ones 100 0
        <> Some (Return (avg_wait, avg_system, throughput, res)))
  /\ throughput_of (mkResults [] [] []) 0 = Raise ZeroDivisionError.
Proof.
  split; [reflexivity|]. split; [intros; discriminate | reflexivity].
Qed.

(** ** Invalid configurations *)

Lemma item_ltb_lt x y : time x < time y -> item_ltb x y = true.
Proof.
  unfold item_ltb. intros H.
  destruct (Qcompare_spec (time x) (time y)) as [E|L|G]; [|reflexivity|]; lra.
Qed.

Lemma item_ltb_gt x y : time y < time x -> item_ltb x y = false.
Proof.
  unfold item_ltb. intros H.
  destruct (Qcompare_spec (time x) (time y)) as [E|L|G]; [| |reflexivity]; lra.
Qed.

(** A horizon that is not positive: [env.run] raises at once, and the state
    is the one line 53 left. *)
Lemma horizon_rejected nd ar sm rs fuel d :
  d <= 0 ->
  simulate nd ar sm rs fuel d = Some (Raise (ValueError until_not_after_now), created).
Proof.
  intros Hd. unfold simulate, env_run.
  assert (E : Qle_bool d (clock created) = true)
    by (apply Qle_bool_iff; change (clock created) with 0; exact Hd).
  rewrite E. reflexivity.
Qed.

(** No driver: the arrival process fails on its first statement, and the
    second step of the loop raises its exception. *)
Lemma capacity_rejected nd ar sm rs fuel d :
  (nd <= 0)%Z -> 0 < d ->
  simulate nd ar sm rs (S (S fuel)) d
  = Some (Raise (ValueError capacity_not_positive),
          mkState (mkEnv (0 + 0 + 0) 3 [mkItem (0 + (d - 0)) URGENT 1 Until])
                  (mkResource [] []) (mkResults [] [] []) 0 []).
Proof.
  intros Hn Hd. unfold simulate, env_run.
  assert (E : Qle_bool d (clock created) = false).
  { destruct (Qle_bool d (clock created)) eqn:E; [|reflexivity].
    apply Qle_bool_iff in E. change (clock created) with 0 in E. lra. }
  rewrite E.
  assert (C : (nd <=? 0)%Z = true) by (apply Z.leb_le, Hn).
  unfold run_loop, step, created, schedule, with_env, clock.
  cbn [env now queue eid heappush driver_resource results rng trace].
  rewrite item_ltb_gt by (simpl; lra).
  cbn [ev env now queue eid heappush driver_resource results rng trace resume food_delivery].
  rewrite C. unfold fail, schedule, with_env.
  cbn [ev env now queue eid heappush driver_resource results rng trace].
  rewrite item_ltb_lt by (simpl; lra).
  cbn [ev env now queue eid heappush driver_resource results rng trace time].
  reflexivity.
Qed.

(** C3, as amended: with no driver ([num_drivers <= 0]) or a negative
    horizon the run raises [ValueError] and returns no results.  The
    exception comes after line 53 has scheduled the start of the arrival
    process (at most three events were scheduled: that start, the horizon
    and the end of the failed arrival process), and before anything else
    happened: the clock is still 0, no sample was drawn, no order was
    spawned, requested a driver, was granted one or completed, the results
    are empty, and no process is suspended on a timer or on a request. *)
Theorem invalid_configuration_rejected nd ar sm rs fuel d :
  (nd <= 0)%Z \/ d < 0 ->
  exists why st,
    simulate nd ar sm rs (S (S fuel)) d = Some (Raise (ValueError why), st)
    /\ run_simulation nd ar sm rs (S (S fuel)) d = Some (Raise (ValueError why))
    /\ (why = capacity_not_positive \/ why = until_not_after_now)
    /\ (1 <= eid (env st) <= 3)%nat
    /\ clock st == 0
    /\ rng st = 0%nat
    /\ trace st = []
    /\ results st = mkResults [] [] []
    /\ driver_resource st = mkResource [] []
    /\ (frames st = [] \/ frames st = [FoodDelivery fd_entry]).
Proof.
  intros H.
  assert (Cases : d <= 0 \/ ((nd <= 0)%Z /\ 0 < d)).
  { destruct H as [H|H]; [|left; lra].
    destruct (Qlt_le_dec 0 d); [right; split; assumption | left; assumption]. }
  destruct Cases as [Hd|[Hn Hd]].
  - exists until_not_after_now, created.
    pose proof (horizon_rejected nd ar sm rs (S (S fuel)) d Hd) as E.
    unfold run_simulation. rewrite E.
    repeat split; try reflexivity; simpl; auto.
  - eexists capacity_not_positive, _.
    pose proof (capacity_rejected nd ar sm rs fuel d Hn Hd) as E.
    unfold run_simulation. rewrite E.
    repeat split; try reflexivity; simpl; auto.
Qed.

Lemma invalid_configuration_rejected_witness :
  exists why st,
    simulate 0 (1#10) 30 ones 2 480 = Some (Raise (ValueError why), st)
    /\ run_simulation 0 (1#10) 30 ones 2 480 = Some (Raise (ValueError why))
    /\ (why = capacity_not_positive \/ why = until_not_after_now)
    /\ (1 <= eid (env st) <= 3)%nat
    /\ clock st == 0
    /\ rng st = 0%nat
    /\ trace st = []
    /\ results st = mkResults [] [] []
    /\ driver_resource st = mkResource [] []
    /\ (frames st = [] \/ frames st = [FoodDelivery fd_entry]).
Proof.
  apply (invalid_configuration_rejected 0 (1#10) 30 ones 0 480).
  left. lia.
Defined.

(** C3 as stated fails on "before any event is scheduled".  With a horizon
    of -1 the run is rejected when the start of the arrival process is
    already in the queue; with no driver it is rejected in the second step
    of the loop, after that start was processed, when three events have
    been scheduled. *)
Lemma events_scheduled_before_rejection :
  simulate 5 (1#10) 30 ones 2 (-1)
  = Some (Raise (ValueError until_not_after_now),
          mkState (mkEnv 0 1 [mkItem (0 + 0) URGENT 0 (Initialize (FoodDelivery fd_entry))])
                  (mkResource [] []) (mkResults [] [] []) 0 [])
  /\ simulate 0 (1#10) 30 ones 1 480 = None
  /\ simulate 0 (1#10) 30 ones 2 480
     = Some (Raise (ValueError capacity_not_positive),
             mkState (mkEnv (0 + 0 + 0) 3 [mkItem (0 + (480 - 0)) URGENT 1 Until])
                     (mkResource [] []) (mkResults [] [] []) 0 []).
Proof.
  repeat split; vm_compute; reflexivity.
Qed.

(** ** The exponential samples *)

(** C4, as amended: a draw with rate [lambd] fails exactly when the rate is
    0, with [ZeroDivisionError]; with a positive rate it returns a sample
    that is not negative; with a negative rate it does not fail, and returns
    a sample that is not positive.  [food_delivery] draws with
    [lambd = arrival_rate] and [handle_order] with
    [lambd = 1 / service_time_mean].  The value [rs (rng st)] the random
    source gives is taken not to be negative, as [-log(1.0 - random())] is. *)
Theorem draw_by_rate rs lambd st :
  0 <= rs (rng st) ->
  (lambd == 0 -> fst (draw rs lambd st) = Raise ZeroDivisionError)
  /\ (0 < lambd ->
      fst (draw rs lambd st) = Return (rs (rng st) / lambd)
      /\ 0 <= rs (rng st) / lambd)
  /\ (lambd < 0 ->
      fst (draw rs lambd st) = Return (rs (rng st) / lambd)
      /\ rs (rng st) / lambd <= 0).
Proof.
  intros He. unfold draw, expovariate, truediv. simpl.
  repeat split.
  - intros H. apply Qeq_bool_iff in H. rewrite H. reflexivity.
  - destruct (Qeq_bool lambd 0) eqn:E; [|reflexivity].
    apply Qeq_bool_eq in E. lra.
  - apply Qle_shift_div_l; [assumption | lra].
  - destruct (Qeq_bool lambd 0) eqn:E; [|reflexivity].
    apply Qeq_bool_eq in E. lra.
  - assert (N : rs (rng st) / lambd == - (rs (rng st) / - lambd))
      by (field; lra).
    assert (P : 0 <= rs (rng st) / - lambd)
      by (apply Qle_shift_div_l; lra).
    lra.
Qed.

Lemma draw_by_rate_witness :
  (1#10 == 0 -> fst (draw ones (1#10) created) = Raise ZeroDivisionError)
  /\ (0 < 1#10 ->
      fst (draw ones (1#10) created) = Return (ones (rng created) / (1#10))
      /\ 0 <= ones (rng created) / (1#10))
  /\ (1#10 < 0 ->
      fst (draw ones (1#10) created) = Return (ones (rng created) / (1#10))
      /\ ones (rng created) / (1#10) <= 0).
Proof.
  apply (draw_by_rate ones (1#10) created). vm_compute. discriminate.
Defined.

(** C4 as stated fails: the rate -1 is not positive, and the draw returns
    the sample -2 instead of failing. *)
Lemma negative_rate_draw_returns :
  -1 <= 0
  /\ 0 <= 2
  /\ fst (draw (fun _ => 2) (-1) created) = Return (2 / -1)
  /\ 2 / -1 < 0.
Proof.
  repeat split; try reflexivity; vm_compute; discriminate.
Qed.

(** ** Means of an empty run *)



(** ** Waiting and service *)

(** C6: in the results a run returns, every waiting time is at least 0 and
    the system time recorded with it is at least the waiting time. *)
Theorem completed_orders_timing nd ar sm rs fuel d avg_wait avg_system throughput res :
  run_simulation nd ar sm rs fuel d
  = Some (Return (avg_wait, avg_system, throughput, res)) ->
  Forall2 (fun wait_time system_time => 0 <= wait_time /\ wait_time <= system_time)
          (wait_times res) (system_times res).
Proof.
  intros E. apply run_simulation_returned in E. destruct E as (st & E & ->).
  apply simulate_sound in E. exact (timely_results _ (sound_timely _ E)).
Qed.

(** One driver, an order every 5 minutes, 10 minutes of service, half an
    hour: the second order waits 5 minutes. *)
Lemma completed_orders_timing_witness :
  Forall2 (fun wait_time system_time => 0 <= wait_time /\ wait_time <= system_time)
          [0; 5] [10; 15].
Proof.
  apply (completed_orders_timing 1 (1#5) 10 ones 1000 30 (5#2) (25#2) (120#30)
           (mkResults [0; 5] [10; 15] [1%nat; 2%nat])).
  vm_compute. reflexivity.
Defined.

(** ** Order ids *)

(** C7: at every point of a run the ids given to the spawned orders are, in
    the order of spawning, 1, 2, ..., up to the number of orders spawned. *)
Theorem order_ids_consecutive nd ar sm rs d n :
  let st := state_at nd ar sm rs d n in
  spawned_ids (trace st) = seq 1 (length (spawned_ids (trace st))).
Proof.
  exact (acc_spawned _ _ _ _ (sound_accounted _ (state_at_sound nd ar sm rs d n))).
Qed.

Example six_orders_spawned :
  spawned_ids (trace (state_at 1 (1#5) 10 ones 32 1000))
  = [1; 2; 3; 4; 5; 6]%nat.
Proof. vm_compute. reflexivity. Qed.

(** ** First come, first served *)

Lemma NoDup_split_unique {A} (b : A) : forall x y x' y',
  NoDup (x ++ b :: y) -> x ++ b :: y = x' ++ b :: y' -> x = x'.
Proof.
  induction x as [|a x IH]; intros y x' y' N E.
  - destruct x' as [|a' x']; [reflexivity|].
    simpl in *. inversion E; subst. inversion N as [|? ? Hn _]; subst.
    exfalso. apply Hn, in_or_app. right. left. reflexivity.
  - destruct x' as [|a' x'].
    + simpl in *. inversion E; subst. inversion N as [|? ? Hn _]; subst.
      exfalso. apply Hn, in_or_app. right. left. reflexivity.
    + simpl in *. inversion E; subst. inversion N; subst.
      f_equal. eapply IH; eassumption.
Qed.

Lemma in_granted_ids a tr :
  In a (granted_ids tr) -> exists t, In (Granted a t) tr.
Proof.
  unfold granted_ids. rewrite in_flat_map. intros (x & Hx & Ha).
  destruct x; simpl in Ha; try contradiction.
  destruct Ha as [<-|[]]. eexists. exact Hx.
Qed.

Lemma StronglySorted_before {A} (R : A -> A -> Prop) y : forall l1 l2,
  StronglySorted R (l1 ++ y :: l2) -> Forall (fun x => R x y) l1.
Proof.
  induction l1 as [|x l1 IH]; intros l2 H; [constructor|].
  simpl in H. inversion H as [|? ? Hs Hx]; subst. constructor.
  - rewrite Forall_forall in Hx. apply Hx, in_or_app. right. left. reflexivity.
  - eapply IH, Hs.
Qed.

(** C8: at every point of a run, if the request of order [a] was made
    before the request of order [b], then whenever [b] is granted a driver,
    [a] has been granted one before, at a time that is not later. *)
Theorem grants_are_fifo nd ar sm rs d n a ta b tb gb l1 l2 l3 m1 m2 :
  let st := state_at nd ar sm rs d n in
  trace st = l1 ++ Requested a ta :: l2 ++ Requested b tb :: l3 ->
  trace st = m1 ++ Granted b gb :: m2 ->
  exists ga, In (Granted a ga) m1 /\ ga <= gb.
Proof.
  intros st HR HG.
  destruct (state_at_sound nd ar sm rs d n) as [Ht Hs Ha _].
  fold st in Ht, Hs, Ha.
  pose proof (NoDup_app_remove_l _ _ (acc_requests _ _ _ _ Ha)) as Hn.
  assert (R : requested_ids (trace st)
              = (requested_ids l1 ++ a :: requested_ids l2) ++ b :: requested_ids l3).
  { rewrite HR. unfold requested_ids. rewrite flat_map_app. simpl.
    rewrite flat_map_app. simpl. rewrite <- app_assoc. reflexivity. }
  assert (G : requested_ids (trace st)
              = granted_ids m1
                ++ b :: (granted_ids m2
                         ++ map ho_order (put_queue (driver_resource st)))).
  { rewrite Hs, HG. unfold granted_ids. rewrite flat_map_app. simpl.
    rewrite <- app_assoc. reflexivity. }
  assert (E : granted_ids m1 = requested_ids l1 ++ a :: requested_ids l2).
  { eapply NoDup_split_unique; [rewrite <- G; exact Hn|].
    rewrite <- G. exact R. }
  assert (Ia : In a (granted_ids m1))
    by (rewrite E; apply in_or_app; right; left; reflexivity).
  destruct (in_granted_ids _ _ Ia) as [ga Hga]. exists ga. split; [exact Hga|].
  pose proof (timely_chrono _ Ht) as Hc. rewrite HG in Hc.
  apply StronglySorted_before in Hc. rewrite Forall_forall in Hc.
  apply (Hc _ Hga).
Qed.

(** One driver, an order every 5 minutes, 10 minutes of service: order 2
    asks at 10 and order 3 at 15; order 3 is served at 25, order 2 at 15. *)
Lemma grants_are_fifo_witness : exists ga, In (Granted 2 ga)
  [Spawned 1 5; Requested 1 5; Granted 1 5; Spawned 2 10; Requested 2 10;
   Completed 1 0 10 15; Spawned 3 15; Requested 3 15; Granted 2 15;
   Spawned 4 20; Requested 4 20; Completed 2 5 15 25; Spawned 5 25;
   Requested 5 25] /\ ga <= 25.
Proof.
  apply (grants_are_fifo 1 (1#5) 10 ones 32 1000 2 10 3 15 25
           [Spawned 1 5; Requested 1 5; Granted 1 5; Spawned 2 10]
           [Completed 1 0 10 15; Spawned 3 15]
           [Granted 2 15; Spawned 4 20; Requested 4 20; Completed 2 5 15 25;
            Spawned 5 25; Requested 5 25; Granted 3 25; Spawned 6 30;
            Requested 6 30]
           [Spawned 1 5; Requested 1 5; Granted 1 5; Spawned 2 10; Requested 2 10;
            Completed 1 0 10 15; Spawned 3 15; Requested 3 15; Granted 2 15;
            Spawned 4 20; Requested 4 20; Completed 2 5 15 25; Spawned 5 25;
            Requested 5 25]
           [Spawned 6 30; Requested 6 30]);
    vm_compute; reflexivity.
Defined.

(** ** Determinism *)

(** C9: two runs with the same configuration, on random sources that give
    the same values, return the same outcome: the same three sequences and
    the same summary, or the same exception.  The number of steps each run
    is allowed plays no part, as long as both come to their end. *)
Theorem run_simulation_deterministic nd ar sm d rs1 rs2 fuel1 fuel2 r1 r2 :
  (forall i, rs1 i = rs2 i) ->
  run_simulation nd ar sm rs1 fuel1 d = Some r1 ->
  run_simulation nd ar sm rs2 fuel2 d = Some r2 ->
  r1 = r2.
Proof.
  intros same E1 E2. unfold run_simulation in *.
  destruct (simulate nd ar sm rs1 fuel1 d) as [x1|] eqn:S1; [|discriminate].
  destruct (simulate nd ar sm rs2 fuel2 d) as [x2|] eqn:S2; [|discriminate].
  rewrite <- (simulate_same nd ar sm rs1 rs2 same) in S2.
  apply (simulate_more _ _ _ _ _ _ fuel2) in S1.
  apply (simulate_more _ _ _ _ _ _ fuel1) in S2.
  rewrite Nat.add_comm in S2. rewrite S1 in S2. inversion S2; subst.
  destruct x2 as [[[]|e] st]; congruence.
Qed.

(** The same run on two sources that are equal value by value, with 40 and
    with 60 steps allowed. *)
Lemma run_simulation_deterministic_witness :
  Return (5#2, 25#2, 120#30, mkResults [0; 5] [10; 15] [1%nat; 2%nat])
  = Return (5#2, 25#2, 120#30, mkResults [0; 5] [10; 15] [1%nat; 2%nat]).
Proof.
  apply (run_simulation_deterministic 1 (1#5) 10 30 ones
           (fun i => 1 + inject_Z (Z.of_nat i - Z.of_nat i)) 40 60).
  - intros i. unfold ones. rewrite Z.sub_diag. reflexivity.
  - vm_compute. reflexivity.
  - vm_compute. reflexivity.
Defined.

(** ** The three sequences *)

Lemma combine_projections (l : list (Q * Q * nat)) :
  combine (combine (map (fun c => fst (fst c)) l) (map (fun c => snd (fst c)) l))
          (map snd l) = l.
Proof.
  induction l as [|[[w s] k] l IH]; simpl; [reflexivity|]. rewrite IH. reflexivity.
Qed.

Lemma in_pending pt fr : In (HandleOrder pt) fr -> In (ho_order pt) (pending fr).
Proof.
  intros H. unfold pending. apply in_flat_map.
  exists (HandleOrder pt). split; [exact H | left; reflexivity].
Qed.

(** C10: at every point of a run the three sequences have the same length,
    their entries at equal positions are the waiting time, system time and
    id that one order logged when it completed, in the order of the
    completions, and an order whose handler is still suspended (not
    started, waiting for a driver or in service) has no entry. *)
Theorem results_aligned nd ar sm rs d n :
  let st := state_at nd ar sm rs d n in
  length (wait_times (results st)) = length (completed_orders (results st))
  /\ length (system_times (results st)) = length (completed_orders (results st))
  /\ combine (combine (wait_times (results st)) (system_times (results st)))
             (completed_orders (results st))
     = completions (trace st)
  /\ forall pt, In (HandleOrder pt) (frames st) ->
       ~ In (ho_order pt) (completed_orders (results st)).
Proof.
  intros st.
  destruct (state_at_sound nd ar sm rs d n) as [_ _ Ha (Hw & Hs & Ho)].
  fold st in Ha, Hw, Hs, Ho. rewrite Hw, Hs, Ho.
  repeat split.
  - rewrite !length_map. reflexivity.
  - rewrite !length_map. reflexivity.
  - apply combine_projections.
  - intros pt Hp Hc. apply in_pending in Hp.
    pose proof (acc_pending _ _ _ _ Ha) as N.
    apply in_split in Hp. destruct Hp as (p1 & p2 & Ep). rewrite Ep in N.
    rewrite <- app_assoc in N. simpl in N. apply NoDup_remove_2 in N.
    apply N. apply in_or_app. right. apply in_or_app. right. exact Hc.
Qed.

(** After 32 minutes with one driver: two orders are completed, order 3 is
    in service and orders 4, 5 and 6 wait. *)
Example two_completed_four_pending :
  let st := state_at 1 (1#5) 10 ones 32 1000 in
  completions (trace st) = [(0, 10, 1%nat); (5, 15, 2%nat)]
  /\ pending (frames st) = [3; 4; 5; 6]%nat.
Proof. vm_compute. split; reflexivity. Qed.

(** * Further properties *)

(** ** The order of the heap *)

Lemma item_ltb_spec x y :
  item_ltb x y = true <->
  time x < time y
  \/ (time x == time y
      /\ ((priority x < priority y)%nat
          \/ (priority x = priority y /\ (id x < id y)%nat))).
Proof.
  unfold item_ltb.
  destruct (Qcompare_spec (time x) (time y)) as [E|L|G].
  - destruct (Nat.compare_spec (priority x) (priority y)) as [E'|L'|G'].
    + rewrite Nat.ltb_lt. split; [intros H; right; auto|].
      intros [H|[_ [H|[_ H]]]]; [lra | lia | exact H].
    + split; [intros _; right; auto|reflexivity].
    + split; [discriminate|]. intros [H|[_ [H|[H _]]]]; [lra | lia | lia].
  - split; [intros _; left; exact L | reflexivity].
  - split; [discriminate|]. intros [H|[H _]]; lra.
Qed.

Lemma item_ltb_asym x y : item_ltb x y = true -> item_ltb y x = false.
Proof.
  intros H. destruct (item_ltb y x) eqn:E; [|reflexivity].
  apply item_ltb_spec in H. apply item_ltb_spec in E.
  destruct H as [H|[H1 [H|[H2 H]]]], E as [E|[E1 [E|[E2 E]]]];
    solve [lra | lia].
Qed.

Lemma item_ltb_trans x y z :
  item_ltb x y = true -> item_ltb y z = true -> item_ltb x z = true.
Proof.
  intros H E. apply item_ltb_spec in H. apply item_ltb_spec in E.
  apply item_ltb_spec.
  destruct H as [H|[H1 [H|[H2 H]]]], E as [E|[E1 [E|[E2 E]]]];
    solve [left; lra | right; split; [lra | lia]].
Qed.

Lemma heappush_key_sorted x q :
  StronglySorted key_le q -> StronglySorted key_le (heappush x q).
Proof.
  induction 1 as [|y q Hs IH Hy]; simpl.
  - repeat constructor.
  - destruct (item_ltb x y) eqn:E.
    + constructor; [constructor; assumption|].
      constructor; [apply item_ltb_asym, E|].
      eapply Forall_impl; [|exact Hy]. unfold key_le. intros z Hz.
      destruct (item_ltb z x) eqn:F; [|reflexivity].
      rewrite (item_ltb_trans _ _ _ F E) in Hz. discriminate.
    + constructor; [exact IH|].
      apply Forall_heappush; [exact E | exact Hy].
Qed.

Lemma In_heappush x y q : In y q -> In y (heappush x q).
Proof.
  intros H. eapply Permutation_in; [apply Permutation_sym, heappush_perm|].
  right. exact H.
Qed.

(** ** What the processes schedule *)

Lemma truediv_positive a b : 0 < b -> truediv a b = Return (a / b).
Proof.
  intros H. unfold truediv. destruct (Qeq_bool b 0) eqn:E; [|reflexivity].
  apply Qeq_bool_eq in E. lra.
Qed.

Lemma Qltb_nonneg x : 0 <= x -> Qltb x 0 = false.
Proof.
  intros H. unfold Qltb. apply Qle_bool_iff in H. rewrite H. reflexivity.
Qed.

Lemma sample_nonneg e lambd : 0 <= e -> 0 < lambd -> 0 <= e / lambd.
Proof. intros He Hl. apply Qle_shift_div_l; [exact Hl | lra]. Qed.

Ltac push :=
  lazymatch goal with
  | |- pushes _ ?st ?st => apply pushes_refl
  | |- pushes _ _ (schedule _ _ _ _) => apply pushes_schedule; [push|]
  | |- pushes _ _ (log _ ?s) => apply (pushes_other _ _ s); [push | reflexivity]
  | |- pushes _ _ (with_resource _ ?s) =>
      apply (pushes_other _ _ s); [push | reflexivity]
  | |- pushes _ _ (with_results _ ?s) =>
      apply (pushes_other _ _ s); [push | reflexivity]
  | |- pushes _ _ (mkState (env ?s) _ _ _ _) =>
      apply (pushes_other _ _ s); [push | reflexivity]
  end.

Lemma pushes_trans P st st1 st2 :
  pushes P st st1 -> pushes P st1 st2 -> pushes P st st2.
Proof.
  intros H1 H2. induction H2.
  - exact H1.
  - apply pushes_schedule; [apply IHpushes, H1 | assumption].
  - eapply pushes_other; [apply IHpushes, H1 | assumption].
Qed.

Lemma pushes_clock P st st' : pushes P st st' -> clock st' = clock st.
Proof.
  induction 1; [reflexivity | exact IHpushes |].
  unfold clock in *. congruence.
Qed.

(** An invariant of the environment that [schedule] keeps is kept. *)
Lemma pushes_invariant P (I : Environment -> Prop) :
  (forall st prio delay e, P e -> I (env st) -> I (env (schedule prio delay e st))) ->
  forall st st', pushes P st st' -> I (env st) -> I (env st').
Proof.
  intros HS st st' H. induction H; intros HI.
  - exact HI.
  - apply HS; [assumption | apply IHpushes, HI].
  - rewrite H0. apply IHpushes, HI.
Qed.

Section Pushes.

Variable num_drivers : Z.
Variables arrival_rate service_time_mean : Q.
Variable rs : nat -> Q.
Variable P : event -> Prop.

Hypothesis P_ok : forall e, ~ failed e -> ~ is_until e -> P e.
Hypothesis P_fail :
  valid_configuration num_drivers arrival_rate service_time_mean rs
  \/ forall e, P (Process (Some e)).

Ltac allowed := solve [apply P_ok; simpl; tauto].

Lemma trigger_put_pushes st : pushes P st (trigger_put num_drivers st).
Proof.
  unfold trigger_put.
  destruct (put_queue (driver_resource st)) as [|pt rest]; [apply pushes_refl|].
  destruct (_ <? _)%Z; [|apply pushes_refl]. push. allowed.
Qed.

Lemma request_pushes pt st : pushes P st (request num_drivers pt st).
Proof.
  unfold request. eapply pushes_trans; [|apply trigger_put_pushes]. push.
Qed.

Lemma release_pushes k st : pushes P st (release k st).
Proof. unfold release. push. allowed. Qed.

Lemma food_delivery_loop_pushes k st :
  pushes P st (food_delivery_loop arrival_rate rs k st).
Proof.
  unfold food_delivery_loop, draw, yield_timeout, fail, expovariate.
  destruct P_fail as [(_ & Ha & _ & Hr)|F].
  - rewrite (truediv_positive _ _ Ha).
    rewrite (Qltb_nonneg _ (sample_nonneg _ _ (Hr (rng st)) Ha)).
    push. allowed.
  - destruct (truediv _ _) as [x|e]; [destruct (Qltb x 0)|]; push;
      first [apply F | allowed].
Qed.

Lemma start_service_pushes k a st :
  pushes P st (start_service service_time_mean rs k a st).
Proof.
  unfold start_service, draw, yield_timeout, fail, release, expovariate.
  destruct P_fail as [(_ & _ & Hs & Hr)|F].
  - rewrite (truediv_positive 1 _ Hs).
    assert (Hrate : 0 < 1 / service_time_mean)
      by (apply Qlt_shift_div_l; [exact Hs | lra]).
    rewrite (truediv_positive _ _ Hrate).
    rewrite (Qltb_nonneg _ (sample_nonneg _ _ (Hr (rng st)) Hrate)).
    push. allowed.
  - destruct (truediv 1 _) as [rate|e];
      [destruct (truediv _ rate) as [x|e]; [destruct (Qltb x 0)|]|];
      push; first [apply F | allowed].
Qed.

Lemma complete_pushes k a w st : pushes P st (complete k a w st).
Proof. unfold complete, finish, release. push; allowed. Qed.

Lemma resume_pushes p st :
  pushes P st (resume num_drivers arrival_rate service_time_mean rs p st).
Proof.
  destruct p as [[|k]|[k|k a|k a w]]; simpl.
  - destruct (num_drivers <=? 0)%Z eqn:E.
    + unfold fail. push. destruct P_fail as [(Hn & _)|F]; [|apply F].
      apply Z.leb_le in E. lia.
    + apply food_delivery_loop_pushes.
  - eapply pushes_trans; [|apply food_delivery_loop_pushes]. push. allowed.
  - apply request_pushes.
  - apply start_service_pushes.
  - apply complete_pushes.
Qed.

(** One step: nothing on an empty queue; otherwise the head is popped, and
    what its callbacks do is scheduling. *)
Lemma step_cases st sg st' :
  step num_drivers arrival_rate service_time_mean rs st = (sg, st') ->
  match queue (env st) with
  | [] => sg = EmptySchedule /\ st' = st
  | x :: q =>
      pushes P (with_env (fun en => mkEnv (time x) (eid en) q) st) st'
      /\ sg = match ev x with
              | Process (Some e) => Crash e
              | Until => StopSimulation
              | _ => Continue
              end
      /\ (failed (ev x) \/ is_until (ev x) ->
          st' = with_env (fun en => mkEnv (time x) (eid en) q) st)
  end.
Proof.
  unfold step. destruct (queue (env st)) as [|x q].
  - intros E. inversion E. split; reflexivity.
  - destruct (ev x) as [p|p|pt| |[e|]|]; intros E; inversion E; subst;
      (split; [|split; [reflexivity | simpl; try tauto]]).
    + apply resume_pushes.
    + apply resume_pushes.
    + apply (resume_pushes (HandleOrder pt)).
    + apply trigger_put_pushes.
    + apply pushes_refl.
    + apply pushes_refl.
    + apply pushes_refl.
Qed.

End Pushes.

(** ** Event ids *)

Lemma schedule_distinct st prio delay e :
  distinct_ids (env st) -> distinct_ids (env (schedule prio delay e st)).
Proof.
  intros [N B]. constructor; simpl.
  - eapply Permutation_NoDup.
    + apply Permutation_sym, Permutation_map, heappush_perm.
    + simpl. constructor; [|exact N].
      intros H. apply in_map_iff in H. destruct H as (y & Ey & Hy).
      rewrite Forall_forall in B. apply B in Hy. lia.
  - apply Forall_heappush; [simpl; lia|].
    eapply Forall_impl; [|exact B]. simpl. intros; lia.
Qed.

Lemma pop_distinct st x q :
  queue (env st) = x :: q -> distinct_ids (env st) ->
  distinct_ids (env (with_env (fun en => mkEnv (time x) (eid en) q) st))
  /\ ~ In (id x) (map id q).
Proof.
  intros E [N B]. rewrite E in *. simpl in *.
  inversion N; subst. inversion B; subst. split; [|assumption].
  constructor; simpl; assumption.
Qed.

Lemma created_distinct : distinct_ids (env created).
Proof.
  constructor; simpl.
  - constructor; [intros [] | constructor].
  - repeat constructor.
Qed.

Section Horizon.

Variable num_drivers : Z.
Variables arrival_rate service_time_mean : Q.
Variable rs : nat -> Q.
Variable d : Q.

Lemma step_distinct st sg st' :
  step num_drivers arrival_rate service_time_mean rs st = (sg, st') ->
  distinct_ids (env st) -> distinct_ids (env st').
Proof.
  intros E H.
  pose proof (step_cases num_drivers arrival_rate service_time_mean rs
                (fun _ => True) (fun _ _ _ => I) (or_intror (fun _ => I))
                st sg st' E) as C.
  destruct (queue (env st)) as [|x q] eqn:Eq.
  - destruct C as [_ ->]. exact H.
  - destruct C as (Hp & _ & _).
    eapply (pushes_invariant _ distinct_ids); [|exact Hp|].
    + intros. apply schedule_distinct. assumption.
    + apply (pop_distinct st x q Eq H).
Qed.

Lemma schedule_running st prio delay e :
  ~ is_until e -> running d (env st) -> running d (env (schedule prio delay e st)).
Proof.
  intros Hu [H1 (u & Hu1 & Hu2) H3 H4 H5 H6]. constructor; simpl.
  - apply heappush_key_sorted, H1.
  - exists u. split; [apply In_heappush, Hu1 | exact Hu2].
  - apply Forall_heappush; [|exact H3]. simpl. intros ->. elim Hu. exact I.
  - apply Forall_heappush; [|exact H4]. simpl. lia.
  - lia.
  - exact H6.
Qed.

(** The entries popped before the horizon event are due before the horizon. *)
Lemma pop_running st x q :
  queue (env st) = x :: q -> distinct_ids (env st) -> running d (env st) ->
  ~ is_until (ev x) ->
  running d (env (with_env (fun en => mkEnv (time x) (eid en) q) st)).
Proof.
  intros E Hd [H1 (u & Hu1 & Hu2) H3 H4 H5 H6] Hx.
  destruct (pop_distinct st x q E Hd) as [_ Hn].
  rewrite E in *. inversion H1 as [|? ? Hs Hle]; subst.
  inversion H3 as [|? ? _ H3']; subst. inversion H4 as [|? ? Hx0 H4']; subst.
  assert (Hq : In u q).
  { destruct Hu1 as [->|Hq]; [|exact Hq]. rewrite Hu2 in Hx. elim Hx. exact I. }
  constructor; simpl; try assumption.
  - exists u. split; assumption.
  - rewrite Forall_forall in Hle, H3'.
    destruct (H3' u Hq Hu2) as (Ht & Hp & Hi).
    pose proof (Hle u Hq) as K. unfold key_le in K.
    destruct (Qlt_le_dec (time x) d) as [L|G]; [exact L|]. exfalso.
    assert (F : item_ltb u x = true).
    { apply item_ltb_spec. rewrite Hp, Hi. unfold URGENT.
      destruct (Qlt_le_dec (time u) (time x)) as [L|G']; [left; exact L|].
      right. split; [lra|].
      destruct (priority x) as [|n]; [|left; lia]. right. split; [reflexivity|].
      destruct (id x) as [|[|n]] eqn:Ei; [|exfalso|lia].
      - assert (time x < d) by (apply Hx0; reflexivity). lra.
      - apply Hn. apply in_map_iff. exists u. split; [lia | exact Hq]. }
    congruence.
Qed.

Lemma pop_until st x q :
  queue (env st) = x :: q -> running d (env st) -> is_until (ev x) -> time x == d.
Proof.
  intros E [_ _ H3 _ _ _] Hx. rewrite E in H3. inversion H3 as [|? ? H _]; subst.
  destruct (ev x); try contradiction. apply H. reflexivity.
Qed.

Lemma started_running :
  0 < d -> running d (env (started d)).
Proof.
  intros Hd. unfold started, created, schedule, with_env, clock. simpl.
  rewrite item_ltb_gt by (simpl; lra).
  constructor; simpl.
  - repeat constructor. unfold key_le. apply item_ltb_gt. simpl. lra.
  - eexists. split; [right; left; reflexivity | reflexivity].
  - constructor; [discriminate|]. constructor; [|constructor].
    intros _. simpl. repeat split. lra.
  - constructor; [simpl; intros _; lra|]. constructor; [discriminate | constructor].
  - lia.
  - exact Hd.
Qed.

Lemma started_distinct : distinct_ids (env (started d)).
Proof. apply schedule_distinct, created_distinct. Qed.

(** One step of a loop that has not come to its end. *)
Lemma step_going st sg st' :
  step num_drivers arrival_rate service_time_mean rs st = (sg, st') ->
  sound st -> distinct_ids (env st) -> running d (env st) ->
  Forall (fun a => action_time a < d) (trace st')
  /\ match sg with
     | Continue => running d (env st')
     | StopSimulation => clock st' == d
     | Crash _ => clock st' < d
     | EmptySchedule => False
     end.
Proof.
  intros E Hs Hd Hr.
  pose proof (step_sound _ _ _ _ _ _ _ E Hs) as Hs'.
  pose proof (timely_trace _ (sound_timely _ Hs)) as Tr.
  pose proof (timely_trace _ (sound_timely _ Hs')) as Tr'.
  pose proof (run_clock _ _ Hr) as Hc. fold (clock st) in Hc.
  pose proof (step_cases num_drivers arrival_rate service_time_mean rs
                (fun e => ~ is_until e) (fun _ _ H => H)
                (or_intror (fun _ H => H)) st sg st' E) as C.
  destruct (queue (env st)) as [|x q] eqn:Eq.
  - destruct Hr as [_ (u & Hu & _) _ _ _ _]. rewrite Eq in Hu. destruct Hu.
  - destruct C as (Hp & -> & Hsame).
    assert (Before : clock st' < d -> Forall (fun a => action_time a < d) (trace st')).
    { intros L. eapply Forall_impl; [|exact Tr']. simpl. intros a Ha. lra. }
    assert (Go : ~ is_until (ev x) -> running d (env st') /\ clock st' < d).
    { intros Hx. pose proof (pop_running st x q Eq Hd Hr Hx) as R.
      assert (R' : running d (env st')).
      { eapply (pushes_invariant _ (running d)); [|exact Hp | exact R].
        intros. apply schedule_running; assumption. }
      split; [exact R' | exact (run_clock _ _ R')]. }
    destruct (ev x) as [p|p|pt| |[e|]|] eqn:Ev;
      try (destruct Go as [R L]; [simpl; tauto|]; split; [apply Before, L| assumption]).
    split.
    + rewrite (Hsame (or_intror I)). simpl.
      eapply Forall_impl; [|exact Tr]. simpl. intros a Ha. lra.
    + rewrite (Hsame (or_intror I)). unfold clock. simpl.
      apply (pop_until st x q Eq Hr). rewrite Ev. exact I.
Qed.

Lemma steps_going n : forall st,
  sound st -> distinct_ids (env st) -> running d (env st) ->
  Forall (fun a => action_time a < d)
         (trace (snd (steps num_drivers arrival_rate service_time_mean rs n st)))
  /\ match fst (steps num_drivers arrival_rate service_time_mean rs n st) with
     | Continue =>
         running d (env (snd (steps num_drivers arrival_rate service_time_mean rs n st)))
     | StopSimulation =>
         clock (snd (steps num_drivers arrival_rate service_time_mean rs n st)) == d
     | Crash _ =>
         clock (snd (steps num_drivers arrival_rate service_time_mean rs n st)) < d
     | EmptySchedule => False
     end.
Proof.
  induction n as [|n IH]; intros st Hs Hd Hr; simpl.
  - split; [|exact Hr].
    pose proof (timely_trace _ (sound_timely _ Hs)) as Tr.
    pose proof (run_clock _ _ Hr) as Hc. fold (clock st) in Hc.
    eapply Forall_impl; [|exact Tr]. simpl. intros a Ha. lra.
  - destruct (step _ _ _ _ st) as [sg st'] eqn:E.
    pose proof (step_going _ _ _ E Hs Hd Hr) as G.
    destruct sg; simpl; try exact G.
    apply IH; [eapply step_sound; eassumption | eapply step_distinct; eassumption | apply G].
Qed.

End Horizon.

(** ** The horizon *)

Lemma run_loop_stopped nd ar sm rs fuel : forall st st',
  run_loop nd ar sm rs fuel st = Some (Return tt, st') ->
  steps nd ar sm rs fuel st = (StopSimulation, st').
Proof.
  induction fuel as [|fuel IH]; intros st st' E; simpl in *; [discriminate|].
  destruct (step nd ar sm rs st) as [sg st1].
  destruct sg; try discriminate; [apply IH, E | inversion E; reflexivity].
Qed.

(** X1: in a run with a positive horizon the clock never passes the
    horizon, and whatever the processes did (spawn, request, grant,
    completion) they did strictly before it: an event due exactly at the
    horizon is not processed. *)
Theorem nothing_at_the_horizon nd ar sm rs d n :
  0 < d ->
  let st := state_at nd ar sm rs d n in
  clock st <= d /\ Forall (fun a => action_time a < d) (trace st).
Proof.
  intros Hd st. unfold st, state_at.
  assert (E : Qle_bool d (clock created) = false).
  { destruct (Qle_bool d (clock created)) eqn:E; [|reflexivity].
    apply Qle_bool_iff in E. change (clock created) with 0 in E. lra. }
  rewrite E.
  destruct (steps_going nd ar sm rs d n (started d)
              (started_sound d E) (started_distinct d) (started_running d Hd))
    as [T C].
  split; [|exact T].
  destruct (fst (steps nd ar sm rs n (started d))).
  - pose proof (run_clock _ _ C) as L. unfold clock. lra.
  - lra.
  - lra.
  - destruct C.
Qed.

(** One driver, an order every 5 minutes, 10 minutes of service, a horizon
    of 25 minutes. *)
Lemma nothing_at_the_horizon_witness :
  clock (state_at 1 (1#5) 10 ones 25 1000) <= 25
  /\ Forall (fun a => action_time a < 25) (trace (state_at 1 (1#5) 10 ones 25 1000)).
Proof.
  apply (nothing_at_the_horizon 1 (1#5) 10 ones 25 1000). reflexivity.
Defined.

(** In that run the second order would complete at 25, and the fifth would
    arrive at 25: neither is in the log. *)
Example second_order_not_completed :
  trace (state_at 1 (1#5) 10 ones 25 1000)
  = [Spawned 1 5; Requested 1 5; Granted 1 5; Spawned 2 10; Requested 2 10;
     Completed 1 0 10 15; Spawned 3 15; Requested 3 15; Granted 2 15;
     Spawned 4 20; Requested 4 20].
Proof. vm_compute. reflexivity. Qed.

(** X2: when [env.run] returns, the clock stands exactly at the horizon. *)
Theorem clock_at_return nd ar sm rs fuel d st :
  simulate nd ar sm rs fuel d = Some (Return tt, st) -> clock st == d.
Proof.
  intros E. pose proof (simulate_returns_positive _ _ _ _ _ _ _ E) as Hd.
  unfold simulate, env_run in E.
  destruct (Qle_bool d (clock created)) eqn:Q; [discriminate|].
  apply run_loop_stopped in E.
  destruct (steps_going nd ar sm rs d fuel (started d)
              (started_sound d Q) (started_distinct d) (started_running d Hd))
    as [_ C].
  fold (started d) in E. rewrite E in C. exact C.
Qed.

Lemma clock_at_return_witness :
  clock (state_at 1 (1#5) 10 ones 25 1000) == 25.
Proof.
  apply (clock_at_return 1 (1#5) 10 ones 1000 25). vm_compute. reflexivity.
Defined.

(** ** The heap never has to compare two events *)

Lemma steps_distinct nd ar sm rs n : forall st,
  distinct_ids (env st) -> distinct_ids (env (snd (steps nd ar sm rs n st))).
Proof.
  induction n as [|n IH]; intros st H; simpl; [exact H|].
  destruct (step nd ar sm rs st) as [sg st'] eqn:E.
  pose proof (step_distinct _ _ _ _ _ _ _ E H) as H'.
  destruct sg; simpl; try exact H'. apply IH, H'.
Qed.



(** ** The clock *)

Lemma step_clock nd ar sm rs st sg st' :
  step nd ar sm rs st = (sg, st') -> sound st -> clock st <= clock st'.
Proof.
  intros E Hs.
  pose proof (step_cases nd ar sm rs (fun _ => True) (fun _ _ _ => I)
                (or_intror (fun _ => I)) st sg st' E) as C.
  destruct (queue (env st)) as [|x q] eqn:Eq.
  - destruct C as [_ ->]. apply Qle_refl.
  - destruct C as (Hp & _ & _). rewrite (pushes_clock _ _ _ Hp).
    destruct (pop_timely st x q Eq (sound_timely _ Hs)) as (_ & H & _).
    exact H.
Qed.

Lemma steps_clock nd ar sm rs n : forall st,
  sound st -> clock st <= clock (snd (steps nd ar sm rs n st)).
Proof.
  induction n as [|n IH]; intros st Hs; simpl; [apply Qle_refl|].
  destruct (step nd ar sm rs st) as [sg st'] eqn:E.
  pose proof (step_clock _ _ _ _ _ _ _ E Hs) as H.
  pose proof (step_sound _ _ _ _ _ _ _ E Hs) as Hs'.
  destruct sg; simpl; try exact H.
  eapply Qle_trans; [exact H | apply IH, Hs'].
Qed.

Lemma steps_add nd ar sm rs n m : forall st,
  snd (steps nd ar sm rs (n + m) st)
  = snd (steps nd ar sm rs m (snd (steps nd ar sm rs n st)))
  \/ snd (steps nd ar sm rs (n + m) st) = snd (steps nd ar sm rs n st).
Proof.
  induction n as [|n IH]; intros st; simpl; [left; reflexivity|].
  destruct (step nd ar sm rs st) as [sg st']. destruct sg; simpl; auto.
Qed.

(** X4: the clock of a run never moves backwards. *)
Theorem clock_monotone nd ar sm rs d n m :
  (n <= m)%nat ->
  clock (state_at nd ar sm rs d n) <= clock (state_at nd ar sm rs d m).
Proof.
  intros H. replace m with (n + (m - n))%nat by lia.
  unfold state_at. destruct (Qle_bool d (clock created)) eqn:E; [apply Qle_refl|].
  destruct (steps_add nd ar sm rs n (m - n) (started d)) as [-> | ->].
  - apply steps_clock, steps_sound, started_sound, E.
  - apply Qle_refl.
Qed.

Lemma clock_monotone_witness :
  clock (state_at 1 (1#5) 10 ones 32 3) <= clock (state_at 1 (1#5) 10 ones 32 20).
Proof.
  apply (clock_monotone 1 (1#5) 10 ones 32 3 20). lia.
Defined.

(** ** A valid configuration never raises *)

Lemma schedule_calm st prio delay e :
  ~ failed e -> calm (env st) -> calm (env (schedule prio delay e st)).
Proof. intros He H. apply Forall_heappush; [exact He | exact H]. Qed.

Section Valid.

Variable num_drivers : Z.
Variables arrival_rate service_time_mean : Q.
Variable rs : nat -> Q.
Variable d : Q.

Hypothesis valid :
  valid_configuration num_drivers arrival_rate service_time_mean rs.

Lemma step_calm st sg st' :
  step num_drivers arrival_rate service_time_mean rs st = (sg, st') ->
  calm (env st) -> calm (env st') /\ forall e, sg <> Crash e.
Proof.
  intros E H.
  pose proof (step_cases num_drivers arrival_rate service_time_mean rs
                (fun e => ~ failed e /\ ~ is_until e) (fun _ H1 H2 => conj H1 H2)
                (or_introl valid) st sg st' E) as C.
  destruct (queue (env st)) as [|x q] eqn:Eq.
  - destruct C as [-> ->]. split; [exact H | discriminate].
  - destruct C as (Hp & -> & _). unfold calm in H. rewrite Eq in H.
    inversion H as [|? ? Hx Hq]; subst. split.
    + eapply (pushes_invariant _ calm); [|exact Hp | exact Hq].
      intros ? ? ? ? [He _]. apply schedule_calm, He.
    + intros e. destruct (ev x) as [p|p|pt| |[e'|]|]; try discriminate.
      elim Hx. exact I.
Qed.

Lemma run_loop_never_raises fuel : forall st,
  sound st -> distinct_ids (env st) -> running d (env st) -> calm (env st) ->
  run_loop num_drivers arrival_rate service_time_mean rs fuel st = None
  \/ exists st',
       run_loop num_drivers arrival_rate service_time_mean rs fuel st
       = Some (Return tt, st').
Proof.
  induction fuel as [|fuel IH]; intros st Hs Hd Hr Hc; simpl; [left; reflexivity|].
  destruct (step _ _ _ _ st) as [sg st'] eqn:E.
  destruct (step_going _ _ _ _ _ _ _ _ E Hs Hd Hr) as [_ G].
  destruct (step_calm _ _ _ E Hc) as [Hc' Hn].
  destruct sg.
  - apply IH; [eapply step_sound; eassumption
              | eapply step_distinct; eassumption | exact G | exact Hc'].
  - right. eexists. reflexivity.
  - elim (Hn e). reflexivity.
  - destruct G.
Qed.

End Valid.

Lemma started_calm d : calm (env (started d)).
Proof.
  apply schedule_calm; [simpl; tauto|].
  unfold calm. simpl. constructor; [simpl; tauto | constructor].
Qed.

Lemma summary_positive res d :
  0 < d ->
  exists avg_wait avg_system,
    summary res d
    = Return (avg_wait, avg_system, len (completed_orders res) / (d / 60), res).
Proof.
  intros Hd. unfold summary.
  destruct (mean_or_zero_returns (wait_times res)) as [w ->].
  destruct (mean_or_zero_returns (system_times res)) as [s ->].
  rewrite (throughput_of_positive _ _ Hd). exists w, s. reflexivity.
Qed.

Lemma simulate_never_raises nd ar sm rs fuel d :
  valid_configuration nd ar sm rs -> 0 < d ->
  simulate nd ar sm rs fuel d = None
  \/ exists st, simulate nd ar sm rs fuel d = Some (Return tt, st).
Proof.
  intros V Hd.
  assert (E : Qle_bool d (clock created) = false).
  { destruct (Qle_bool d (clock created)) eqn:E; [|reflexivity].
    apply Qle_bool_iff in E. change (clock created) with 0 in E. lra. }
  unfold simulate, env_run. rewrite E.
  apply (run_loop_never_raises nd ar sm rs d V fuel (started d)
           (started_sound d E) (started_distinct d) (started_running d Hd)
           (started_calm d)).
Qed.



(** ** The drivers in use *)

Lemma remove_first_length k l : (length (remove_first k l) <= length l)%nat.
Proof.
  induction l as [|x l IH]; simpl; [lia|].
  destruct (Nat.eqb x k); simpl; lia.
Qed.

Section Capacity.

Variable num_drivers : Z.
Variables arrival_rate service_time_mean : Q.
Variable rs : nat -> Q.

Lemma trigger_put_capacity st :
  within_capacity num_drivers st ->
  within_capacity num_drivers (trigger_put num_drivers st).
Proof.
  unfold trigger_put. intros H.
  destruct (put_queue (driver_resource st)) as [|pt rest]; [exact H|].
  destruct (_ <? _)%Z eqn:E; [|exact H].
  apply Z.ltb_lt in E. unfold within_capacity in *. simpl.
  rewrite length_app. simpl. lia.
Qed.

Lemma release_capacity k st :
  within_capacity num_drivers st -> within_capacity num_drivers (release k st).
Proof.
  unfold within_capacity. simpl. intros H.
  pose proof (remove_first_length k (users (driver_resource st))). lia.
Qed.

Lemma food_delivery_loop_capacity k st :
  within_capacity num_drivers st ->
  within_capacity num_drivers (food_delivery_loop arrival_rate rs k st).
Proof.
  intros H. unfold food_delivery_loop, draw, yield_timeout.
  destruct (expovariate _ _) as [x|e]; [destruct (Qltb x 0)|]; exact H.
Qed.

Lemma start_service_capacity k a st :
  within_capacity num_drivers st ->
  within_capacity num_drivers (start_service service_time_mean rs k a st).
Proof.
  intros H. unfold start_service, draw, yield_timeout.
  destruct (truediv 1 _) as [rate|e]; [|apply (release_capacity k st H)].
  destruct (expovariate _ _) as [x|e];
    [destruct (Qltb x 0)|]; first [exact H | apply (release_capacity k _ H)].
Qed.

Lemma resume_capacity p st :
  within_capacity num_drivers st ->
  within_capacity num_drivers
    (resume num_drivers arrival_rate service_time_mean rs p st).
Proof.
  intros H. destruct p as [[|k]|[k|k a|k a w]]; simpl.
  - destruct (num_drivers <=? 0)%Z; [exact H|].
    apply food_delivery_loop_capacity, H.
  - apply food_delivery_loop_capacity. exact H.
  - apply trigger_put_capacity. exact H.
  - apply start_service_capacity, H.
  - apply (release_capacity k _ H).
Qed.

Lemma step_capacity st sg st' :
  step num_drivers arrival_rate service_time_mean rs st = (sg, st') ->
  within_capacity num_drivers st -> within_capacity num_drivers st'.
Proof.
  unfold step. intros E H.
  destruct (queue (env st)) as [|x q].
  - inversion E; subst. exact H.
  - destruct (ev x) as [p|p|pt| |[e|]|]; inversion E; subst; try exact H.
    + apply resume_capacity, H.
    + apply resume_capacity, H.
    + apply (resume_capacity (HandleOrder pt)), H.
    + apply trigger_put_capacity, H.
Qed.

Lemma steps_capacity n : forall st,
  within_capacity num_drivers st ->
  within_capacity num_drivers
    (snd (steps num_drivers arrival_rate service_time_mean rs n st)).
Proof.
  induction n as [|n IH]; intros st H; simpl; [exact H|].
  destruct (step _ _ _ _ st) as [sg st'] eqn:E.
  pose proof (step_capacity _ _ _ E H) as H'.
  destruct sg; simpl; try exact H'. apply IH, H'.
Qed.

End Capacity.

(** X6: at every point of a run the number of requests that hold a driver
    is at most [num_drivers] (and 0 when [num_drivers] is not positive). *)
Theorem drivers_within_capacity nd ar sm rs d n :
  (Z.of_nat (length (users (driver_resource (state_at nd ar sm rs d n))))
   <= Z.max 0 nd)%Z.
Proof.
  change (within_capacity nd (state_at nd ar sm rs d n)).
  unfold state_at.
  assert (C : within_capacity nd created) by (unfold within_capacity; simpl; lia).
  destruct (Qle_bool _ _); [exact C|].
  apply steps_capacity. exact C.
Qed.

(** Two drivers, an order every 5 minutes, 30 minutes of service: after an
    hour orders 3 and 4 hold the drivers and seven orders wait. *)
Example two_drivers_busy :
  let st := state_at 2 (1#5) 30 ones 60 1000 in
  users (driver_resource st) = [3; 4]%nat
  /\ length (put_queue (driver_resource st)) = 7%nat.
Proof. vm_compute. split; reflexivity. Qed.

(** ** Completed orders *)

Lemma pending_perm fr fr' : Permutation fr fr' -> Permutation (pending fr) (pending fr').
Proof. apply Permutation_flat_map. Qed.

Lemma pending_app fr fr' : pending (fr ++ fr') = pending fr ++ pending fr'.
Proof. apply flat_map_app. Qed.

Lemma turn_covered t popped next acts rest sp cp :
  turn t popped next acts ->
  incl (pending (popped ++ rest) ++ map snd cp) sp ->
  incl (pending (next ++ rest) ++ map snd (cp ++ completions acts))
       (sp ++ spawned_ids acts).
Proof.
  intros Ht H.
  destruct Ht; simpl in *; rewrite ?app_nil_r in *; unfold incl in *;
    intros x Hx; specialize (H x);
    rewrite ?map_app, ?in_app_iff in *; simpl in *;
    rewrite ?in_app_iff in *; simpl in *; intuition.
Qed.

Lemma lives_covered st st' : lives st st' -> covered st -> covered st'.
Proof.
  unfold covered.
  intros (t & popped & next & acts & rest & Ht & P & P' & S & R & C) H.
  rewrite S, C.
  assert (H1 : incl (pending (popped ++ rest) ++ map snd (completions (trace st)))
                    (spawned_ids (trace st))).
  { intros x Hx. apply H. rewrite in_app_iff in *. destruct Hx as [Hx|Hx]; [|auto].
    left. eapply Permutation_in; [apply Permutation_sym, pending_perm, P | exact Hx]. }
  pose proof (turn_covered _ _ _ _ _ _ _ Ht H1) as H2.
  intros x Hx. apply H2. rewrite in_app_iff in *. destruct Hx as [Hx|Hx]; [|auto].
  left. eapply Permutation_in; [apply pending_perm, P' | exact Hx].
Qed.

Lemma created_covered : covered created.
Proof. intros x []. Qed.

Lemma state_at_covered nd ar sm rs d n : covered (state_at nd ar sm rs d n).
Proof.
  unfold state_at. destruct (Qle_bool _ _); [apply created_covered|].
  assert (S : covered (started d)).
  { eapply lives_covered; [|apply created_covered].
    apply (lives_of_adds 0 [] [] [] created created (started d)
             (Permutation_refl _) eq_refl (turn_idle 0)).
    apply schedule_adds_nil. reflexivity. }
  generalize (started d) S. clear S.
  induction n as [|n IH]; intros st H; simpl; [exact H|].
  destruct (step nd ar sm rs st) as [sg st'] eqn:E.
  pose proof (lives_covered _ _ (step_lives _ _ _ _ _ _ _ E) H) as H'.
  destruct sg; simpl; try exact H'. apply IH, H'.
Qed.

(** X7: at every point of a run no order id occurs twice among the
    completed orders, every completed order was spawned, and so there are
    at most as many completed orders as spawned ones. *)
Theorem completed_orders_distinct nd ar sm rs d n :
  let st := state_at nd ar sm rs d n in
  NoDup (completed_orders (results st))
  /\ incl (completed_orders (results st)) (spawned_ids (trace st))
  /\ (length (completed_orders (results st)) <= length (spawned_ids (trace st)))%nat.
Proof.
  intros st.
  destruct (state_at_sound nd ar sm rs d n) as [_ _ Ha (_ & _ & Ho)].
  fold st in Ha, Ho. rewrite Ho.
  pose proof (NoDup_app_remove_l _ _ (acc_pending _ _ _ _ Ha)) as N.
  assert (I : incl (map snd (completions (trace st))) (spawned_ids (trace st))).
  { intros x Hx. apply (state_at_covered nd ar sm rs d n).
    apply in_or_app. right. exact Hx. }
  split; [exact N|]. split; [exact I|].
  apply NoDup_incl_length; assumption.
Qed.

(** ** No order is lost *)

Lemma conserved_adds popped next acts st st1 st' :
  Permutation (frames st) (popped ++ frames st1) -> trace st1 = trace st ->
  kept popped next acts -> adds next acts st1 st' ->
  conserved st -> conserved st'.
Proof.
  unfold conserved, kept. intros P T K [F S _ C] H.
  rewrite S, C, T, map_app, (pending_perm _ _ F), pending_app.
  rewrite (pending_perm _ _ P), pending_app in H.
  set (sp := spawned_ids (trace st)) in *.
  set (cp := map snd (completions (trace st))) in *.
  set (A := spawned_ids acts) in *.
  set (MC := map snd (completions acts)) in *.
  set (PP := pending popped) in *. set (N := pending next) in *.
  set (PF := pending (frames st1)) in *.
  apply perm_trans with ((PP ++ A) ++ PF ++ cp).
  - apply perm_trans with (((PP ++ PF) ++ cp) ++ A);
      [apply Permutation_app_tail, H|].
    rewrite <- !app_assoc. apply Permutation_app_head.
    rewrite (app_assoc PF cp A). apply Permutation_app_comm.
  - apply perm_trans with ((N ++ MC) ++ PF ++ cp);
      [apply Permutation_app_tail, Permutation_sym, K|].
    rewrite <- !app_assoc. apply Permutation_app_head.
    rewrite (app_assoc PF cp MC). apply Permutation_app_comm.
Qed.

Section Conserved.

Variable num_drivers : Z.
Variables arrival_rate service_time_mean : Q.
Variable rs : nat -> Q.

Hypothesis service_mean_positive : 0 < service_time_mean.
Hypothesis rs_nonneg : forall i, 0 <= rs i.

Lemma start_service_serves k a st :
  adds [HandleOrder (ho_line38 k a (clock st - a))] [] st
       (start_service service_time_mean rs k a st).
Proof.
  unfold start_service. rewrite (truediv_positive 1 _ service_mean_positive).
  assert (Hrate : 0 < 1 / service_time_mean)
    by (apply Qlt_shift_div_l; [exact service_mean_positive | lra]).
  pose proof (draw_adds rs (1 / service_time_mean) st) as Hd.
  unfold draw, expovariate in *. rewrite (truediv_positive _ _ Hrate).
  simpl in Hd. unfold yield_timeout.
  rewrite (Qltb_nonneg _ (sample_nonneg _ _ (rs_nonneg (rng st)) Hrate)).
  exact (adds_trans _ _ _ _ _ _ _ Hd
           (schedule_adds NORMAL _
              (Timeout (HandleOrder (ho_line38 k a (clock st - a)))) _)).
Qed.

Lemma resume_kept p st :
  exists next acts,
    kept [p] next acts
    /\ adds next acts st (resume num_drivers arrival_rate service_time_mean rs p st).
Proof.
  destruct p as [pt|[k|k a|k a w]].
  - destruct (resume_turn num_drivers arrival_rate service_time_mean rs
                (FoodDelivery pt) st) as (next & acts & Ht & Ha).
    exists next, acts. split; [|exact Ha].
    inversion Ht; subst; unfold kept; simpl; apply Permutation_refl.
  - destruct (resume_turn num_drivers arrival_rate service_time_mean rs
                (HandleOrder (ho_entry k)) st) as (next & acts & Ht & Ha).
    exists next, acts. split; [|exact Ha].
    inversion Ht; subst; unfold kept; simpl; apply Permutation_refl.
  - eexists _, _. split; [|apply start_service_serves].
    unfold kept. simpl. apply Permutation_refl.
  - destruct (resume_turn num_drivers arrival_rate service_time_mean rs
                (HandleOrder (ho_line38 k a w)) st) as (next & acts & Ht & Ha).
    exists next, acts. split; [|exact Ha].
    inversion Ht; subst; unfold kept; simpl; apply Permutation_refl.
Qed.

Lemma step_conserved st sg st' :
  step num_drivers arrival_rate service_time_mean rs st = (sg, st') ->
  conserved st -> conserved st'.
Proof.
  unfold step. intros E H.
  destruct (queue (env st)) as [|x q] eqn:Eq.
  - inversion E; subst. exact H.
  - set (st1 := with_env (fun en => mkEnv (time x) (eid en) q) st) in *.
    assert (P1 : Permutation (frames st) (event_procs (ev x) ++ frames st1)).
    { unfold frames, st1. simpl. rewrite Eq. simpl. rewrite app_assoc. reflexivity. }
    assert (Busy : forall p, event_procs (ev x) = [p] ->
      conserved (resume num_drivers arrival_rate service_time_mean rs p st1)).
    { intros p Ep. rewrite Ep in P1.
      destruct (resume_kept p st1) as (next & acts & K & Ha).
      eapply conserved_adds; [exact P1 | reflexivity | exact K | exact Ha | exact H]. }
    assert (Quiet : forall st2, event_procs (ev x) = [] -> adds [] [] st1 st2 ->
      conserved st2).
    { intros st2 N Ha. rewrite N in P1.
      eapply (conserved_adds [] [] []);
        [exact P1 | reflexivity | apply Permutation_refl | exact Ha | exact H]. }
    destruct (ev x) as [p|p|pt| |[e|]|]; inversion E; subst.
    + apply Busy. reflexivity.
    + apply Busy. reflexivity.
    + apply (Busy (HandleOrder pt)). reflexivity.
    + apply Quiet; [reflexivity | apply trigger_put_adds].
    + apply Quiet; [reflexivity | apply adds_refl].
    + apply Quiet; [reflexivity | apply adds_refl].
    + apply Quiet; [reflexivity | apply adds_refl].
Qed.

Lemma state_at_conserved d n :
  conserved (state_at num_drivers arrival_rate service_time_mean rs d n).
Proof.
  assert (C : conserved created) by apply Permutation_refl.
  unfold state_at. destruct (Qle_bool _ _); [exact C|].
  assert (S : conserved (started d)).
  { eapply (conserved_adds [] [] [] created created);
      [apply Permutation_refl | reflexivity | apply Permutation_refl | | exact C].
    apply schedule_adds_nil. reflexivity. }
  generalize (started d) S. clear S.
  induction n as [|n IH]; intros st H; simpl; [exact H|].
  destruct (step _ _ _ _ st) as [sg st'] eqn:E.
  pose proof (step_conserved _ _ _ E H) as H'.
  destruct sg; simpl; try exact H'. apply IH, H'.
Qed.

End Conserved.

(** X8: with a positive service mean and a random source that gives no
    negative value no order is lost: at every point of a run the spawned
    orders are the orders whose handler is suspended (not started, waiting
    for a driver or in service) together with the completed ones. *)
Theorem no_order_lost nd ar sm rs d n :
  0 < sm -> (forall i, 0 <= rs i) ->
  let st := state_at nd ar sm rs d n in
  Permutation (spawned_ids (trace st))
              (pending (frames st) ++ completed_orders (results st))
  /\ length (spawned_ids (trace st))
     = (length (pending (frames st)) + length (completed_orders (results st)))%nat.
Proof.
  intros Hs Hr st.
  pose proof (state_at_conserved nd ar sm rs Hs Hr d n) as C.
  destruct (state_at_sound nd ar sm rs d n) as [_ _ _ (_ & _ & Ho)].
  fold st in C, Ho. unfold conserved in C. rewrite <- Ho in C.
  split; [exact C|]. rewrite (Permutation_length C), length_app. reflexivity.
Qed.

Lemma no_order_lost_witness :
  let st := state_at 1 (1#5) 10 ones 32 1000 in
  Permutation (spawned_ids (trace st))
              (pending (frames st) ++ completed_orders (results st))
  /\ length (spawned_ids (trace st))
     = (length (pending (frames st)) + length (completed_orders (results st)))%nat.
Proof.
  apply (no_order_lost 1 (1#5) 10 ones 32 1000).
  - reflexivity.
  - intros i. vm_compute. discriminate.
Defined.

(** With a service mean of 0 the handler of order 1 fails when it is given
    a driver, and the order is neither suspended nor completed. *)
Example order_lost_without_service_mean :
  let st := state_at 1 (1#5) 0 ones 32 1000 in
  spawned_ids (trace st) = [1%nat]
  /\ pending (frames st) = []
  /\ completed_orders (results st) = [].
Proof. vm_compute. repeat split; reflexivity. Qed.

(** ** The summary is sane *)

Lemma sum_le l l' : Forall2 service_ok l l' -> 0 <= sum l /\ sum l <= sum l'.
Proof.
  induction 1 as [|w s l l' [H0 H1] _ [IH0 IH1]]; simpl; split; lra.
Qed.

Lemma len_positive {A} (x : A) l : 0 < len (x :: l).
Proof.
  unfold len. change 0 with (inject_Z 0). rewrite <- Zlt_Qlt. simpl length. lia.
Qed.

Lemma mean_or_zero_le l l' a b :
  Forall2 service_ok l l' ->
  mean_or_zero l = Return a -> mean_or_zero l' = Return b ->
  0 <= a /\ a <= b.
Proof.
  intros H Ea Eb. pose proof (sum_le _ _ H) as [S0 S1].
  pose proof (Forall2_length H) as L.
  destruct H as [|w s l l' _ _].
  - simpl in *. inversion Ea; inversion Eb; subst. split; apply Qle_refl.
  - simpl in Ea, Eb. inversion Ea; inversion Eb; subst.
    assert (E : len (s :: l') = len (w :: l)) by (unfold len; rewrite L; reflexivity).
    rewrite E. pose proof (len_positive w l) as P. simpl in S0, S1. split.
    + apply Qle_shift_div_l; [exact P | lra].
    + unfold Qdiv. apply Qmult_le_compat_r; [exact S1|].
      apply Qlt_le_weak, Qinv_lt_0_compat, P.
Qed.

(** X9: in a summary that [run_simulation] returns the mean waiting time is
    at least 0 and at most the mean system time, and the throughput is not
    negative. *)
Theorem summary_sane nd ar sm rs fuel d avg_wait avg_system throughput res :
  run_simulation nd ar sm rs fuel d
  = Some (Return (avg_wait, avg_system, throughput, res)) ->
  0 <= avg_wait /\ avg_wait <= avg_system /\ 0 <= throughput.
Proof.
  intros E. unfold run_simulation in E.
  destruct (simulate nd ar sm rs fuel d) as [[[[]|e] st]|] eqn:S; try discriminate.
  pose proof (simulate_returns_positive _ _ _ _ _ _ _ S) as Hd.
  pose proof (timely_results _ (sound_timely _ (simulate_sound _ _ _ _ _ _ _ _ S))) as T.
  unfold summary in E.
  destruct (mean_or_zero (wait_times (results st))) as [a|] eqn:Ea; [|discriminate].
  destruct (mean_or_zero (system_times (results st))) as [b|] eqn:Eb; [|discriminate].
  rewrite (throughput_of_positive _ _ Hd) in E. inversion E; subst.
  destruct (mean_or_zero_le _ _ _ _ T Ea Eb) as [H0 H1].
  split; [exact H0|]. split; [exact H1|].
  apply Qle_shift_div_l; [apply Qlt_shift_div_l; lra|].
  unfold len. rewrite Qmult_0_l. change 0 with (inject_Z 0).
  rewrite <- Zle_Qle. lia.
Qed.

Lemma summary_sane_witness :
  0 <= 5#2 /\ 5#2 <= 25#2 /\ 0 <= 120#30.
Proof.
  apply (summary_sane 1 (1#5) 10 ones 1000 30 (5#2) (25#2) (120#30)
           (mkResults [0; 5] [10; 15] [1%nat; 2%nat])).
  vm_compute. reflexivity.
Defined.

(** ** What the waiting and system times measure *)

Lemma waited_more tr tr' k a w :
  (forall x, In x tr -> In x tr') -> waited tr k a w -> waited tr' k a w.
Proof.
  intros H [R (g & G & E)]. split; [apply H, R|]. exists g. split; [apply H, G | exact E].
Qed.

Lemma point_due_more tr tr' t pt :
  (forall x, In x tr -> In x tr') -> point_due tr t pt -> point_due tr' t pt.
Proof. intros H. destruct pt; simpl; trivial; apply waited_more, H. Qed.

Lemma point_waiting_more tr tr' pt :
  (forall x, In x tr -> In x tr') -> point_waiting tr pt -> point_waiting tr' pt.
Proof.
  intros H. destruct pt; simpl; trivial; [apply H | apply waited_more, H].
Qed.

Lemma event_due_more tr tr' t e :
  (forall x, In x tr -> In x tr') -> event_due tr t e -> event_due tr' t e.
Proof.
  intros H. destruct e as [[|pt]|[|pt]|pt| | |]; simpl; trivial;
    apply point_due_more, H.
Qed.

Lemma action_due_more tr tr' a :
  (forall x, In x tr -> In x tr') -> action_due tr a -> action_due tr' a.
Proof.
  intros H. destruct a; simpl; trivial.
  intros (a & W & E). exists a. split; [eapply waited_more; eassumption | exact E].
Qed.

Lemma In_snoc {A} (l : list A) (a x : A) : In x l -> In x (l ++ [a]).
Proof. intros H. apply in_or_app. left. exact H. Qed.

Section Explained.

Variable num_drivers : Z.
Variables arrival_rate service_time_mean : Q.
Variable rs : nat -> Q.

Lemma schedule_explained prio delay e st :
  event_due (trace st) (clock st + delay) e ->
  explained st -> explained (schedule prio delay e st).
Proof.
  intros He [H1 H2 H3]. constructor; simpl; try assumption.
  apply Forall_heappush; [exact He | exact H1].
Qed.

Lemma log_explained a st :
  action_due (trace st ++ [a]) a -> explained st -> explained (log a st).
Proof.
  intros Ha [H1 H2 H3]. constructor; simpl.
  - eapply Forall_impl; [|exact H1]. intros x. apply event_due_more, In_snoc.
  - eapply Forall_impl; [|exact H2]. intros x. apply point_waiting_more, In_snoc.
  - apply Forall_app. split; [|repeat constructor; exact Ha].
    eapply Forall_impl; [|exact H3]. intros x. apply action_due_more, In_snoc.
Qed.

Lemma release_explained k st : explained st -> explained (release k st).
Proof.
  intros [H1 H2 H3]. apply schedule_explained; [exact I|].
  constructor; assumption.
Qed.

Lemma fail_explained e st : explained st -> explained (fail e st).
Proof. apply schedule_explained. exact I. Qed.

Lemma trigger_put_explained st :
  explained st -> explained (trigger_put num_drivers st).
Proof.
  unfold trigger_put. intros H.
  destruct (put_queue (driver_resource st)) as [|pt rest] eqn:E; [exact H|].
  destruct (_ <? _)%Z; [|exact H].
  destruct H as [H1 H2 H3]. rewrite E in H2.
  inversion H2 as [|? ? Hpt Hrest]; subst.
  set (tr' := trace st ++ [Granted (ho_order pt) (clock st)]).
  assert (More : forall x, In x (trace st) -> In x tr') by (intros x; apply In_snoc).
  constructor; simpl; fold tr'.
  - apply Forall_heappush.
    + simpl. destruct pt as [k|k a|k a w]; simpl in *.
      * exact I.
      * split; [apply More, Hpt|]. exists (clock st). split.
        -- apply in_or_app. right. left. reflexivity.
        -- unfold clock. lra.
      * eapply waited_more; eassumption.
    + eapply Forall_impl; [|exact H1]. intros x. apply event_due_more, More.
  - eapply Forall_impl; [|exact Hrest]. intros x. apply point_waiting_more, More.
  - apply Forall_app. split; [|repeat constructor].
    eapply Forall_impl; [|exact H3]. intros x. apply action_due_more, More.
Qed.

Lemma request_explained k st :
  explained st -> explained (request num_drivers (ho_line35 k (clock st)) st).
Proof.
  intros [H1 H2 H3]. unfold request. apply trigger_put_explained.
  constructor; simpl.
  - eapply Forall_impl; [|exact H1]. intros x. apply event_due_more, In_snoc.
  - apply Forall_app. split.
    + eapply Forall_impl; [|exact H2]. intros x. apply point_waiting_more, In_snoc.
    + repeat constructor. simpl. apply in_or_app. right. left. reflexivity.
  - apply Forall_app. split; [|repeat constructor].
    eapply Forall_impl; [|exact H3]. intros x. apply action_due_more, In_snoc.
Qed.

Lemma draw_explained lambd st : explained st -> explained (snd (draw rs lambd st)).
Proof. intros [H1 H2 H3]. constructor; assumption. Qed.

Lemma yield_timeout_explained delay p st st' :
  yield_timeout delay p st = Return st' ->
  event_due (trace st) (clock st + delay) (Timeout p) ->
  explained st -> explained st'.
Proof.
  unfold yield_timeout. destruct (Qltb delay 0); intros E; inversion E; subst.
  apply schedule_explained.
Qed.

Lemma food_delivery_loop_explained k st :
  explained st -> explained (food_delivery_loop arrival_rate rs k st).
Proof.
  intros H. unfold food_delivery_loop.
  pose proof (draw_explained arrival_rate st H) as Hd.
  destruct (draw rs arrival_rate st) as [[x|e] st1]; simpl in Hd.
  - destruct (yield_timeout x _ st1) eqn:E.
    + eapply yield_timeout_explained; [exact E | exact I | exact Hd].
    + apply fail_explained, Hd.
  - apply fail_explained, Hd.
Qed.

Lemma start_service_explained k a st :
  waited (trace st) k a (clock st - a) -> explained st ->
  explained (start_service service_time_mean rs k a st).
Proof.
  intros W H. unfold start_service.
  destruct (truediv 1 service_time_mean) as [rate|e].
  - pose proof (draw_explained rate st H) as Hd.
    assert (T : trace (snd (draw rs rate st)) = trace st) by reflexivity.
    destruct (draw rs rate st) as [[x|e] st1]; simpl in Hd, T.
    + destruct (yield_timeout x _ st1) eqn:E.
      * eapply yield_timeout_explained; [exact E | | exact Hd].
        simpl. rewrite T. exact W.
      * apply fail_explained, release_explained, Hd.
    + apply fail_explained, release_explained, Hd.
  - apply fail_explained, release_explained, H.
Qed.

Lemma complete_explained k a w st :
  waited (trace st) k a w -> explained st -> explained (complete k a w st).
Proof.
  intros W H. unfold complete, finish.
  apply schedule_explained; [exact I|]. apply release_explained.
  apply log_explained.
  - simpl. exists a. split; [|reflexivity].
    eapply waited_more; [|exact W]. intros x. apply In_snoc.
  - destruct H as [H1 H2 H3]. constructor; assumption.
Qed.

Lemma resume_explained p st :
  event_due (trace st) (clock st) (Timeout p) -> explained st ->
  explained (resume num_drivers arrival_rate service_time_mean rs p st).
Proof.
  intros Hp H. destruct p as [[|k]|[k|k a|k a w]]; simpl in *.
  - destruct (num_drivers <=? 0)%Z.
    + apply fail_explained, H.
    + apply food_delivery_loop_explained, H.
  - apply food_delivery_loop_explained, log_explained; [exact I|].
    apply schedule_explained; [exact I | exact H].
  - apply request_explained, H.
  - apply start_service_explained; assumption.
  - apply complete_explained; assumption.
Qed.

Lemma step_explained st sg st' :
  step num_drivers arrival_rate service_time_mean rs st = (sg, st') ->
  explained st -> explained st'.
Proof.
  unfold step. intros E H.
  destruct (queue (env st)) as [|x q] eqn:Eq.
  - inversion E; subst. exact H.
  - assert (H1 : explained (with_env (fun en => mkEnv (time x) (eid en) q) st)
                 /\ event_due (trace st) (time x) (ev x)).
    { destruct H as [H1 H2 H3]. rewrite Eq in H1.
      inversion H1; subst. split; [constructor|]; assumption. }
    destruct H1 as [H1 Hx].
    destruct (ev x) as [p|p|pt| |[e|]|]; inversion E; subst; try exact H1.
    + apply resume_explained; [destruct p; exact Hx | exact H1].
    + apply resume_explained; assumption.
    + apply (resume_explained (HandleOrder pt)); assumption.
    + apply trigger_put_explained, H1.
Qed.

Lemma state_at_explained d n :
  explained (state_at num_drivers arrival_rate service_time_mean rs d n).
Proof.
  assert (C : explained created).
  { constructor; simpl; repeat constructor. }
  unfold state_at. destruct (Qle_bool _ _); [exact C|].
  assert (S : explained (started d)) by (apply schedule_explained; [exact I | exact C]).
  generalize (started d) S. clear S.
  induction n as [|n IH]; intros st H; simpl; [exact H|].
  destruct (step _ _ _ _ st) as [sg st'] eqn:E.
  pose proof (step_explained _ _ _ E H) as H'.
  destruct sg; simpl; try exact H'. apply IH, H'.
Qed.

End Explained.

Lemma in_completions w s k tr :
  In (w, s, k) (completions tr) -> exists t, In (Completed k w s t) tr.
Proof.
  unfold completions. rewrite in_flat_map. intros (x & Hx & Hc).
  destruct x; simpl in Hc; try contradiction.
  destruct Hc as [E|[]]. inversion E; subst. eexists. exact Hx.
Qed.

(** X10: at every point of a run every entry of the results is explained
    by the log: the order asked for a driver at some time [a], was given
    one at [g], completed at [t], its waiting time is [g - a] and its
    system time [t - a]. *)
Theorem results_explained nd ar sm rs d n wait_time system_time order_id :
  let st := state_at nd ar sm rs d n in
  In (wait_time, system_time, order_id)
     (combine (combine (wait_times (results st)) (system_times (results st)))
              (completed_orders (results st))) ->
  exists a g t,
    In (Requested order_id a) (trace st)
    /\ In (Granted order_id g) (trace st)
    /\ In (Completed order_id wait_time system_time t) (trace st)
    /\ wait_time == g - a
    /\ system_time == t - a.
Proof.
  intros st H.
  destruct (state_at_sound nd ar sm rs d n) as [_ _ _ (Hw & Hs & Ho)].
  fold st in Hw, Hs, Ho. rewrite Hw, Hs, Ho, combine_projections in H.
  destruct (in_completions _ _ _ _ H) as [t Ht].
  pose proof (exp_done _ (state_at_explained nd ar sm rs d n)) as D.
  fold st in D. rewrite Forall_forall in D.
  destruct (D _ Ht) as (a & (R & g & G & Ew) & Es).
  exists a, g, t. auto.
Qed.

(** The second order of the run with one driver: asked at 10, served at 15,
    completed at 25. *)
Lemma results_explained_witness :
  exists a g t,
    In (Requested 2 a) (trace (state_at 1 (1#5) 10 ones 32 1000))
    /\ In (Granted 2 g) (trace (state_at 1 (1#5) 10 ones 32 1000))
    /\ In (Completed 2 5 15 t) (trace (state_at 1 (1#5) 10 ones 32 1000))
    /\ 5 == g - a
    /\ 15 == t - a.
Proof.
  apply (results_explained 1 (1#5) 10 ones 32 1000 5 15 2).
  vm_compute. tauto.
Defined.

(** ** Times are counted from 0 *)

Section AfterStart.

Variable num_drivers : Z.
Variables arrival_rate service_time_mean : Q.
Variable rs : nat -> Q.

Lemma log_after_start a st :
  action_time a = clock st -> after_start st -> after_start (log a st).
Proof.
  intros E [H0 H]. split; [exact H0|]. simpl.
  apply Forall_app. split; [exact H|]. repeat constructor. rewrite E. exact H0.
Qed.

Lemma trigger_put_after_start st :
  after_start st -> after_start (trigger_put num_drivers st).
Proof.
  unfold trigger_put. intros H.
  destruct (put_queue (driver_resource st)) as [|pt rest]; [exact H|].
  destruct (_ <? _)%Z; [|exact H].
  apply log_after_start; [reflexivity | exact H].
Qed.

Lemma food_delivery_loop_after_start k st :
  after_start st -> after_start (food_delivery_loop arrival_rate rs k st).
Proof.
  intros H. unfold food_delivery_loop, draw, yield_timeout.
  destruct (expovariate _ _) as [x|e]; [destruct (Qltb x 0)|]; exact H.
Qed.

Lemma start_service_after_start k a st :
  after_start st -> after_start (start_service service_time_mean rs k a st).
Proof.
  intros H. unfold start_service, draw, yield_timeout.
  destruct (truediv 1 _) as [rate|e]; [|exact H].
  destruct (expovariate _ _) as [x|e]; [destruct (Qltb x 0)|]; exact H.
Qed.

Lemma resume_after_start p st :
  after_start st ->
  after_start (resume num_drivers arrival_rate service_time_mean rs p st).
Proof.
  intros H. destruct p as [[|k]|[k|k a|k a w]]; simpl.
  - destruct (num_drivers <=? 0)%Z; [exact H|].
    apply food_delivery_loop_after_start, H.
  - apply food_delivery_loop_after_start.
    apply log_after_start; [reflexivity | exact H].
  - apply trigger_put_after_start.
    apply log_after_start; [reflexivity | exact H].
  - apply start_service_after_start, H.
  - apply (log_after_start (Completed k w (clock st - a) (clock st)));
      [reflexivity | exact H].
Qed.

Lemma step_after_start st sg st' :
  step num_drivers arrival_rate service_time_mean rs st = (sg, st') ->
  sound st -> after_start st -> after_start st'.
Proof.
  unfold step. intros E Hs H.
  destruct (queue (env st)) as [|x q] eqn:Eq.
  - inversion E; subst. exact H.
  - destruct (pop_timely st x q Eq (sound_timely _ Hs)) as (_ & Hx & _).
    assert (H1 : after_start (with_env (fun en => mkEnv (time x) (eid en) q) st)).
    { destruct H as [H0 H]. split; [|exact H]. unfold clock in *. simpl. lra. }
    destruct (ev x) as [p|p|pt| |[e|]|]; inversion E; subst; try exact H1.
    + apply resume_after_start, H1.
    + apply resume_after_start, H1.
    + apply (resume_after_start (HandleOrder pt)), H1.
    + apply trigger_put_after_start, H1.
Qed.

Lemma state_at_after_start d n :
  after_start (state_at num_drivers arrival_rate service_time_mean rs d n).
Proof.
  assert (C : after_start created).
  { split; [unfold clock; simpl; lra | constructor]. }
  unfold state_at. destruct (Qle_bool _ _) eqn:Q; [exact C|].
  assert (S : after_start (started d)) by exact C.
  pose proof (started_sound d Q) as Hs.
  generalize (started d) S Hs. clear S Hs.
  induction n as [|n IH]; intros st H Hs; simpl; [exact H|].
  destruct (step _ _ _ _ st) as [sg st'] eqn:E.
  pose proof (step_after_start _ _ _ E Hs H) as H'.
  pose proof (step_sound _ _ _ _ _ _ _ E Hs) as Hs'.
  destruct sg; simpl; try exact H'. apply IH; assumption.
Qed.

End AfterStart.

Lemma Forall2_bound (d : Q) l l' :
  Forall2 service_ok l l' -> Forall (fun s => s < d) l' -> Forall (fun w => w < d) l.
Proof.
  induction 1 as [|w s l l' [_ H] _ IH]; intros F; [constructor|].
  inversion F; subst. constructor; [lra | apply IH; assumption].
Qed.

(** X11: in a run with a positive horizon every waiting time and every
    system time of the results is smaller than the horizon. *)
Theorem times_below_horizon nd ar sm rs d n :
  0 < d ->
  let st := state_at nd ar sm rs d n in
  Forall (fun wait_time => wait_time < d) (wait_times (results st))
  /\ Forall (fun system_time => system_time < d) (system_times (results st)).
Proof.
  intros Hd st.
  destruct (state_at_sound nd ar sm rs d n) as [Ht _ _ (_ & Hs & _)].
  fold st in Ht, Hs.
  assert (S : Forall (fun s => s < d) (system_times (results st))).
  { rewrite Hs. apply Forall_forall. intros s Hin.
    apply in_map_iff in Hin. destruct Hin as ([[w s'] k] & <- & Hc). simpl.
    destruct (in_completions _ _ _ _ Hc) as [t Hc'].
    pose proof (exp_done _ (state_at_explained nd ar sm rs d n)) as D.
    fold st in D. rewrite Forall_forall in D.
    destruct (D _ Hc') as (a & (R & _) & Es).
    destruct (state_at_after_start nd ar sm rs d n) as [_ A].
    fold st in A. rewrite Forall_forall in A. pose proof (A _ R) as Ha.
    assert (E : Qle_bool d (clock created) = false).
    { destruct (Qle_bool d (clock created)) eqn:E; [|reflexivity].
      apply Qle_bool_iff in E. change (clock created) with 0 in E. lra. }
    destruct (steps_going nd ar sm rs d n (started d)
                (started_sound d E) (started_distinct d) (started_running d Hd))
      as [T _].
    assert (Est : st = snd (steps nd ar sm rs n (started d)))
      by (unfold st, state_at; rewrite E; reflexivity).
    rewrite <- Est in T. rewrite Forall_forall in T. pose proof (T _ Hc') as Lt.
    simpl in Ha, Lt. lra. }
  split; [|exact S].
  eapply Forall2_bound; [exact (timely_results _ Ht) | exact S].
Qed.

Lemma times_below_horizon_witness :
  let st := state_at 1 (1#5) 10 ones 32 1000 in
  Forall (fun wait_time => wait_time < 32) (wait_times (results st))
  /\ Forall (fun system_time => system_time < 32) (system_times (results st)).
Proof.
  apply (times_below_horizon 1 (1#5) 10 ones 32 1000). reflexivity.
Defined.

(** ** [main] *)

(** ** [main] *)

Lemma dict_get_set_same {A} k (v : A) d : dict_get k (dict_set k v d) = Some v.
Proof.
  induction d as [|[k' v'] d IH]; simpl.
  - rewrite String.eqb_refl. reflexivity.
  - destruct (String.eqb k' k) eqn:E; simpl.
    + rewrite String.eqb_refl. reflexivity.
    + rewrite E. exact IH.
Qed.

Lemma dict_get_set_keeps {A} k k' (v : A) d :
  dict_get k' d <> None -> dict_get k' (dict_set k v d) <> None.
Proof.
  induction d as [|[k0 v0] d IH]; simpl; [intros H; elim H; reflexivity|].
  destruct (String.eqb k0 k') eqn:E0.
  - intros _. destruct (String.eqb k0 k) eqn:E; simpl.
    + apply String.eqb_eq in E0, E. subst.
      rewrite String.eqb_refl. discriminate.
    + rewrite E0. discriminate.
  - intros H. destruct (String.eqb k0 k) eqn:E; simpl.
    + apply String.eqb_eq in E. subst. rewrite E0. exact H.
    + rewrite E0. apply IH, H.
Qed.

Lemma skip_nonneg rs pos : (forall i, 0 <= rs i) -> forall i, 0 <= skip pos rs i.
Proof. intros H i. apply H. Qed.

Lemma run_scenarios_valid rs fuel :
  (forall i, 0 <= rs i) ->
  forall todo pos results_list scenario_results,
    Forall params_valid todo ->
    run_scenarios rs fuel todo pos results_list scenario_results = None
    \/ exists rows scenario_results',
         run_scenarios rs fuel todo pos results_list scenario_results
         = Some (Return (results_list ++ rows, scenario_results'))
         /\ map row_configuration rows = todo
         /\ forall k, In k (map fst todo) \/ dict_get k scenario_results <> None ->
                      dict_get k scenario_results' <> None.
Proof.
  intros Hrs. induction todo as [|[name [nd ar sm]] todo IH];
    intros pos rl sr V; simpl.
  - right. exists [], sr. rewrite app_nil_r. split; [reflexivity|].
    split; [reflexivity|]. intros k [[]|H]. exact H.
  - inversion V as [|? ? (Hn & Ha & Hs) V']; subst. simpl in Hn, Ha, Hs.
    unfold run_simulation_at. simpl.
    assert (Hd : 0 < default_sim_duration) by reflexivity.
    destruct (simulate_never_raises nd ar sm (skip pos rs) fuel default_sim_duration
                (conj Hn (conj Ha (conj Hs (skip_nonneg rs pos Hrs)))) Hd)
      as [->|[st ->]]; [left; reflexivity|].
    destruct (summary_positive (results st) default_sim_duration Hd) as (w & s & ->).
    match goal with
    | |- run_scenarios _ _ _ ?pos' ?rl' ?sr' = _ \/ _ =>
        destruct (IH pos' rl' sr' V') as [->|(rows & sr2 & -> & Hc & Hk)]
    end; [left; reflexivity|].
    right. eexists (_ :: rows), sr2. rewrite <- app_assoc. simpl.
    split; [reflexivity|]. split.
    + unfold row_configuration at 1. simpl. rewrite Hc. reflexivity.
    + intros k [[<-|H]|H]; apply Hk.
      * right. rewrite dict_get_set_same. discriminate.
      * left. exact H.
      * right. apply dict_get_set_keeps, H.
Qed.

Lemma scenarios_valid : Forall params_valid scenarios.
Proof. repeat constructor. Qed.



(** The loop of [main] on its first two scenarios, with the source that
    always gives 1: 44 orders are completed in each run. *)
Example two_scenarios_run :
  match run_scenarios ones 2000 (firstn 2 scenarios) 0 [] [] with
  | Some (Return ([r1; r2], [(k1, results1); (k2, results2)])) =>
      map row_configuration [r1; r2] = firstn 2 scenarios
      /\ Row.avg_wait_min r1 == 0 /\ Row.avg_system_min r1 == 30
      /\ Row.throughput_per_hr r1 == 11#2
      /\ k1 = "Baseline (5 drivers)"%string
      /\ length (completed_orders results1) = 44%nat
      /\ length (completed_orders results2) = 44%nat
  | _ => False
  end.
Proof. vm_compute. repeat split; reflexivity. Qed.
